(** * PTT crawler: orchestration engine of [ptt_async_crawler.py]

    A shallow embedding of the asynchronous Playwright crawler
    (src/src/hotBoardsAsync/ptt_async_crawler.py): the retry loop of one
    article unit, the per-board fan-out, the board-level fan-out, the run
    driver and the process entry point, together with a small-step model
    of the two nested semaphores.

    The remote site, the browser and the wall clock are the environment.
    They are modelled as oracles: every call the code makes on a page
    either raises or returns, and the oracle fixes which. *)

From stdpp Require Import gmap strings list fin_maps.
From Stdlib Require Import ZArith Lia Ascii DecimalString.

Open Scope Z_scope.

(** ** Python values *)

(** A Python [str] is a sequence of Unicode code points. *)
Abbreviation pystr := (list N).

(** A string literal of the source, as code points. *)
Definition lit (s : string) : pystr :=
  (λ a, Ascii.N_of_ascii a) <$> String.list_ascii_of_string s.

(** [str.isspace] for one code point; [str.strip()] and the regular
    expression class [\s] on [str] patterns use the same set. *)
Definition py_isspace (c : N) : bool :=
  ((9 <=? c) && (c <=? 13) || (28 <=? c) && (c <=? 32)
   || (c =? 133) || (c =? 160) || (c =? 5760)
   || (8192 <=? c) && (c <=? 8202)
   || (c =? 8232) || (c =? 8233) || (c =? 8239) || (c =? 8287)
   || (c =? 12288))%N.

Fixpoint lstrip (s : pystr) : pystr :=
  match s with
  | c :: s' => if py_isspace c then lstrip s' else s
  | [] => []
  end.

(** [s.strip()] *)
Definition strip (s : pystr) : pystr := reverse (lstrip (reverse (lstrip s))).

(** [s.rstrip('/')] *)
Fixpoint lstrip_char (ch : N) (s : pystr) : pystr :=
  match s with
  | c :: s' => if (c =? ch)%N then lstrip_char ch s' else s
  | [] => []
  end.

Definition rstrip_slash (s : pystr) : pystr :=
  reverse (lstrip_char 47%N (reverse s)).

(** [s.endswith(suffix)] *)
Definition endswith (s suffix : pystr) : bool :=
  bool_decide (drop (length s - length suffix)%nat s = suffix).

(** [re.sub(r'\s+', ' ', s)]: every maximal run of white space becomes
    one space. [in_ws] tells whether the previous code point was white. *)
Fixpoint collapse_ws (in_ws : bool) (s : pystr) : pystr :=
  match s with
  | [] => []
  | c :: s' =>
      if py_isspace c
      then (if in_ws then collapse_ws true s' else 32%N :: collapse_ws true s')
      else c :: collapse_ws false s'
  end.

(** Values stored in the result dictionaries: strings and integers. *)
Inductive pyval :=
  | VStr (s : pystr)
  | VInt (n : Z).

Global Instance pyval_eq_dec : EqDecision pyval.
Proof. solve_decision. Defined.

(** Truthiness of an optional string: [None] and [''] are false. *)
Definition truthy (o : option pystr) : bool :=
  match o with
  | Some (_ :: _) => true
  | _ => false
  end.

(** ** Constants of the module *)

Definition NUM_BOARDS : nat := 10.
Definition ARTICLES_PER_BOARD : nat := 15.
Definition CONCURRENT_BOARDS : nat := 3.
Definition CONCURRENT_ARTICLES : nat := 5.
Definition PAGE_TIMEOUT : Z := 30000.
Definition REQUEST_DELAY : Z := 1.
Definition MAX_RETRIES : nat := 2.
Definition RETRY_DELAY : Z := 3.

(** ** Exceptions *)

(** The exceptions of class [Exception] the code can meet: a missing
    dictionary key, a method called on [None], and whatever the browser
    layer raises (carried with its message). *)
Inductive exn :=
  | KeyError (key : string)
  | AttributeError
  | PlaywrightError (msg : pystr).

Global Instance exn_eq_dec : EqDecision exn.
Proof. solve_decision. Defined.

(** [str(e)] *)
Definition str_of_exn (e : exn) : pystr :=
  match e with
  | KeyError k => lit "'" ++ lit k ++ lit "'"
  | AttributeError => lit "'NoneType' object has no attribute 'strip'"
  | PlaywrightError m => m
  end.

(** An oracle answer: the call raises ([inl]) or returns ([inr]). *)
Abbreviation resp A := (exn + A)%type.

(** ** Shared state, observable calls and the effect monad *)

(** [self.stats]: the counters every task of the run increments. *)
Record Stats := mkStats {
  boards_processed : nat;
  articles_crawled : nat;
  articles_failed : nat;
  articles_retried : nat;
  errors : nat;
  start_time : option pystr;
  end_time : option pystr
}.

Definition stats0 : Stats := mkStats 0 0 0 0 0 None None.

(** The calls on the outside world that the development observes, in
    program order: what a test double of the browser would record. *)
Inductive event :=
  | EvNewPage
  | EvGoto (url : pystr) (timeout : Z)
  | EvLoadState (timeout : Z)
  | EvClick
  | EvWaitSelector (selector : string) (timeout : Z)
  | EvQuery (selector : string)
  | EvClose
  | EvSleep (secs : Z)
  | EvBoard (name : pystr)
  | EvSave (filename : pystr) (rows : nat)
  | EvSaveSummary
  | EvSetupBrowser
  | EvCleanup.

Global Instance event_eq_dec : EqDecision event.
Proof. solve_decision. Defined.

(** Result of running a piece of code: it raised or returned, the
    counters afterwards, and the calls it made. *)
Record Res (A : Type) := mkRes {
  out : resp A;
  st : Stats;
  tr : list event
}.
Arguments mkRes {A} _ _ _.
Arguments out {A} _.
Arguments st {A} _.
Arguments tr {A} _.

Definition M (A : Type) : Type := Stats → Res A.

Definition ret {A} (a : A) : M A := λ s, mkRes (inr a) s [].
Definition raise {A} (e : exn) : M A := λ s, mkRes (inl e) s [].

Definition bind {A B} (m : M A) (f : A → M B) : M B := λ s,
  match m s with
  | mkRes (inl e) s1 t1 => mkRes (inl e) s1 t1
  | mkRes (inr a) s1 t1 =>
      match f a s1 with
      | mkRes o s2 t2 => mkRes o s2 (t1 ++ t2)
      end
  end.

Global Instance M_ret : MRet M := @ret.
Global Instance M_bind : MBind M := λ A B f m, bind m f.

(** [try: body  except Exception as e: handler(e)]. An exception raised
    by the handler itself is not caught. *)
Definition try_except {A} (body : M A) (handler : exn → M A) : M A := λ s,
  match body s with
  | mkRes (inr a) s1 t1 => mkRes (inr a) s1 t1
  | mkRes (inl e) s1 t1 =>
      match handler e s1 with
      | mkRes o s2 t2 => mkRes o s2 (t1 ++ t2)
      end
  end.

(** [try: body  finally: fin]. The final block runs on every exit of the
    body (return, continue or exception); when it raises, its exception
    replaces the outcome of the body. *)
Definition try_finally {A} (body : M A) (fin : M unit) : M A := λ s,
  match body s with
  | mkRes o s1 t1 =>
      match fin s1 with
      | mkRes (inl e) s2 t2 => mkRes (inl e) s2 (t1 ++ t2)
      | mkRes (inr _) s2 t2 => mkRes o s2 (t1 ++ t2)
      end
  end.

(** A call on the outside world: it is recorded, and the oracle's answer
    is what the call does. *)
Definition call {A} (ev : event) (answer : resp A) : M A := λ s,
  mkRes answer s [ev].

(** [await asyncio.sleep(secs)] *)
Definition sleep (secs : Z) : M unit := call (EvSleep secs) (inr ()).

(** [self.stats[...] += 1] *)
Definition modify (f : Stats → Stats) : M unit := λ s, mkRes (inr ()) (f s) [].

Definition incr_boards_processed (s : Stats) : Stats :=
  mkStats (S (boards_processed s)) (articles_crawled s) (articles_failed s)
          (articles_retried s) (errors s) (start_time s) (end_time s).
Definition incr_articles_crawled (s : Stats) : Stats :=
  mkStats (boards_processed s) (S (articles_crawled s)) (articles_failed s)
          (articles_retried s) (errors s) (start_time s) (end_time s).
Definition incr_articles_failed (s : Stats) : Stats :=
  mkStats (boards_processed s) (articles_crawled s) (S (articles_failed s))
          (articles_retried s) (errors s) (start_time s) (end_time s).
Definition incr_articles_retried (s : Stats) : Stats :=
  mkStats (boards_processed s) (articles_crawled s) (articles_failed s)
          (S (articles_retried s)) (errors s) (start_time s) (end_time s).
Definition incr_errors (s : Stats) : Stats :=
  mkStats (boards_processed s) (articles_crawled s) (articles_failed s)
          (articles_retried s) (S (errors s)) (start_time s) (end_time s).
Definition set_start_time (t : pystr) (s : Stats) : Stats :=
  mkStats (boards_processed s) (articles_crawled s) (articles_failed s)
          (articles_retried s) (errors s) (Some t) (end_time s).
Definition set_end_time (t : pystr) (s : Stats) : Stats :=
  mkStats (boards_processed s) (articles_crawled s) (articles_failed s)
          (articles_retried s) (errors s) (start_time s) (Some t).

(** [d[key]] on a dictionary of strings: [KeyError] when the key is
    missing. *)
Definition get_item (d : gmap string pystr) (key : string) : M pystr :=
  match d !! key with
  | Some v => ret v
  | None => raise (KeyError key)
  end.

(** Outcome of one iteration of a [for] loop whose body may [continue]
    or [return]. *)
Inductive ctl (A : Type) :=
  | Continue
  | Return (a : A).
Arguments Continue {A}.
Arguments Return {A} _.

(** [asyncio.gather] with [return_exceptions=True]: every task runs to
    its end, an exception of a task becomes its result, and the results
    come in the order of the tasks. The counters are threaded through the
    tasks in that order; the tasks only increment them. *)
Fixpoint gather {A} (tasks : list (M A)) : M (list (resp A)) :=
  match tasks with
  | [] => ret []
  | t :: ts =>
      λ s, match t s with
           | mkRes o s1 t1 =>
               match gather ts s1 with
               | mkRes (inr rs) s2 t2 => mkRes (inr (o :: rs)) s2 (t1 ++ t2)
               | mkRes (inl e) s2 t2 => mkRes (inl e) s2 (t1 ++ t2)
               end
           end
  end.

(** ** The outside world *)

(** One browser page, from [self.context.new_page()] to [page.close()]:
    what each call on it does. [wait_for_load_state] is asked with the
    time-out it is given. *)
Record Page := mkPage {
  pg_open : resp unit;
  pg_goto : resp unit;
  pg_load_state : Z → resp unit;
  pg_age_count : resp nat;
  pg_age_click : resp unit;
  pg_close : resp unit
}.

(** The page of one attempt on an article: the page itself, the early
    [page.close()] of the retry branch, and the answers of the detail
    queries. [dp_pushes] is the number of [.push] elements. *)
Record DetailPage := mkDetailPage {
  dp_page : Page;
  dp_close_retry : resp unit;
  dp_wait_main : resp unit;
  dp_main_count : resp nat;
  dp_main_text : resp (option pystr);
  dp_pushes : resp nat
}.

(** One [a.board] element of the hot-boards page. *)
Record BoardElem := mkBoardElem {
  be_name_count : resp nat;
  be_name_text : resp (option pystr);
  be_href : resp (option pystr)
}.

(** One [.r-ent] element of a board index page. *)
Record PostElem := mkPostElem {
  pe_title_count : resp nat;
  pe_title_text : resp (option pystr);
  pe_href : resp (option pystr);
  pe_author_count : resp nat;
  pe_author_text : resp (option pystr);
  pe_date_count : resp nat;
  pe_date_text : resp (option pystr)
}.

(** What the site answers for one board: its index page, and for the
    post at position [i] of the listing and attempt [k], the detail
    page. *)
Record BoardWorld := mkBoardWorld {
  bw_page : Page;
  bw_wait : resp unit;
  bw_all : resp (list PostElem);
  bw_article : nat → nat → DetailPage
}.

(** What the browser and the site answer during one run. Boards are
    addressed by their position in the list the run works on. *)
Record World := mkWorld {
  w_setup_browser : resp unit;
  w_cleanup : resp unit;
  w_hot_page : Page;
  w_hot_wait : resp unit;
  w_hot_all : resp (list BoardElem);
  w_board : nat → BoardWorld;
  w_save : pystr → resp unit;
  w_save_summary : resp unit
}.

(** The wall clock: the readings of [datetime.now()] at the start and
    the end of the crawl, and in attempt [k] on post [i] of board [b]. *)
Record Clock := mkClock {
  ck_start : pystr;
  ck_end : pystr;
  ck_article : nat → nat → nat → pystr
}.

(** A board, [{'name': ..., 'url': ...}]. *)
Record Board := mkBoard {
  name : pystr;
  url : pystr
}.

Global Instance Board_eq_dec : EqDecision Board.
Proof. solve_decision. Defined.

(** ** Page set-up *)

(** [handle_page_setup(page, retry_count)]: waits for the page with a
    time-out that grows with the retry count, confirms the age gate when
    it shows, and answers [False] on any exception. *)
Definition handle_page_setup (page : Page) (retry_count : nat) : M bool :=
  try_except
    (let timeout := 10000 + Z.of_nat retry_count * 5000 in
     call (EvLoadState timeout) (pg_load_state page timeout);;
     n ← call (EvQuery "button:has-text") (pg_age_count page);
     (if (0 <? n)%nat
      then call EvClick (pg_age_click page);;
           call (EvLoadState 5000) (pg_load_state page 5000)
      else mret ());;
     mret true)
    (λ e, if (retry_count <? MAX_RETRIES)%nat then mret false else mret false).

(** ** The article unit *)

(** [{**post}]: a result record starts as a copy of the post. *)
Definition of_post (post : gmap string pystr) : gmap string pyval :=
  VStr <$> post.

(** The record of lines 270 and 329: set-up failed on the last attempt. *)
Definition failed_record (post : gmap string pystr) (retry_count : nat)
  : gmap string pyval :=
  <["retry_count" := VInt (Z.of_nat retry_count)]>
    (<["status" := VStr (lit "failed")]>
       (<["pushes" := VInt 0]>
          (<["content" := VStr []]> (of_post post)))).

(** The record of lines 319-326: the last attempt raised. *)
Definition error_record (post : gmap string pystr) (e : exn)
  (retry_count : nat) : gmap string pyval :=
  <["retry_count" := VInt (Z.of_nat retry_count)]>
    (<["error" := VStr (str_of_exn e)]>
       (<["status" := VStr (lit "error")]>
          (<["pushes" := VInt 0]>
             (<["content" := VStr []]> (of_post post))))).

(** The record of lines 290-297. *)
Definition success_record (post : gmap string pystr) (content : pystr)
  (pushes : nat) (timestamp : pystr) (retry_count : nat)
  : gmap string pyval :=
  <["retry_count" := VInt (Z.of_nat retry_count)]>
    (<["crawl_time" := VStr timestamp]>
       (<["status" := VStr (lit "success")]>
          (<["pushes" := VInt (Z.of_nat pushes)]>
             (<["content" := VStr (take 1000 content)]> (of_post post))))).

(** The body of the inner [try] of one attempt (lines 258-305). *)
Definition attempt_body (dp : DetailPage) (now : pystr)
  (post : gmap string pystr) (retry_count : nat)
  : M (ctl (gmap string pyval)) :=
  link ← get_item post "link";
  call (EvGoto link PAGE_TIMEOUT) (pg_goto (dp_page dp));;
  ok ← handle_page_setup (dp_page dp) retry_count;
  if negb ok then
    if (retry_count <? MAX_RETRIES)%nat then
      get_item post "title";;
      modify incr_articles_retried;;
      call EvClose (dp_close_retry dp);;
      sleep RETRY_DELAY;;
      mret Continue
    else
      mret (Return (failed_record post retry_count))
  else
    call (EvWaitSelector "#main-content" 15000) (dp_wait_main dp);;
    n ← call (EvQuery "#main-content") (dp_main_count dp);
    content ← (if (0 <? n)%nat then
                 content_text ← call (EvQuery "#main-content") (dp_main_text dp);
                 mret (match content_text with
                       | Some (c :: t) => collapse_ws false (strip (c :: t))
                       | _ => []
                       end)
               else mret []);
    pushes ← call (EvQuery ".push") (dp_pushes dp);
    let result := success_record post content pushes now retry_count in
    (if (0 <? retry_count)%nat then get_item post "title";; mret ()
     else mret ());;
    sleep REQUEST_DELAY;;
    mret (Return result).

(** The exception handler of one attempt (lines 310-326). *)
Definition attempt_handler (post : gmap string pystr) (retry_count : nat)
  (e : exn) : M (ctl (gmap string pyval)) :=
  if (retry_count <? MAX_RETRIES)%nat then
    get_item post "title";;
    modify incr_articles_retried;;
    sleep RETRY_DELAY;;
    mret Continue
  else
    get_item post "title";;
    modify incr_errors;;
    mret (Return (error_record post e retry_count)).

(** The outer [try] of one attempt (lines 255-308): a new page, the body,
    and [page.close()] in the final block. *)
Definition attempt_try (dp : DetailPage) (now : pystr)
  (post : gmap string pystr) (retry_count : nat)
  : M (ctl (gmap string pyval)) :=
  call EvNewPage (pg_open (dp_page dp));;
  try_finally (attempt_body dp now post retry_count)
              (call EvClose (pg_close (dp_page dp))).

(** One iteration of the retry loop. *)
Definition attempt (dp : DetailPage) (now : pystr)
  (post : gmap string pystr) (retry_count : nat)
  : M (ctl (gmap string pyval)) :=
  try_except (attempt_try dp now post retry_count)
             (attempt_handler post retry_count).

(** The loop [for retry_count in range(MAX_RETRIES + 1)] over the
    remaining values of [retry_count], and the statement after it. *)
Fixpoint retry_loop (pages : nat → DetailPage) (now : nat → pystr)
  (post : gmap string pystr) (retry_counts : list nat)
  : M (gmap string pyval) :=
  match retry_counts with
  | [] => mret (failed_record post MAX_RETRIES)
  | retry_count :: rest =>
      c ← attempt (pages retry_count) (now retry_count) post retry_count;
      match c with
      | Continue => retry_loop pages now post rest
      | Return result => mret result
      end
  end.

(** [get_article_detail_with_retry(sem, post)], once the semaphore is
    held. *)
Definition get_article_detail_with_retry (pages : nat → DetailPage)
  (now : nat → pystr) (post : gmap string pystr) : M (gmap string pyval) :=
  retry_loop pages now post (seq 0 (MAX_RETRIES + 1)).

(** ** Listing the posts of a board *)

(** The dictionary of lines 230-236. *)
Definition listing_record (title link author date board : pystr)
  : gmap string pystr :=
  <["board" := board]>
    (<["date" := date]>
       (<["author" := author]>
          (<["link" := link]>
             (<["title" := title]> ∅)))).

(** The body of the loop of [get_board_posts] for one [.r-ent] element:
    the post it yields, or [None] when the element is skipped. *)
Definition parse_post_elem (board : Board) (pe : PostElem)
  : M (option (gmap string pystr)) :=
  try_except
    (n ← call (EvQuery ".title a") (pe_title_count pe);
     if (n =? 0)%nat then mret None else
     title ← call (EvQuery ".title a") (pe_title_text pe);
     href ← call (EvQuery ".title a") (pe_href pe);
     match title, href with
     | Some (c1 :: s1), Some (c2 :: s2) =>
         na ← call (EvQuery ".author") (pe_author_count pe);
         author ← (if (0 <? na)%nat
                   then call (EvQuery ".author") (pe_author_text pe)
                   else mret (Some []));
         nd ← call (EvQuery ".date") (pe_date_count pe);
         date ← (if (0 <? nd)%nat
                 then call (EvQuery ".date") (pe_date_text pe)
                 else mret (Some []));
         match author, date with
         | Some author, Some date =>
             mret (Some (listing_record (strip (c1 :: s1))
                           (lit "https://www.ptt.cc" ++ (c2 :: s2))
                           (strip author) (strip date) (name board)))
         | _, _ => raise AttributeError
         end
     | _, _ => mret None
     end)
    (λ _, mret None).

(** The loop over the elements, in page order. *)
Fixpoint parse_post_elems (board : Board) (elems : list PostElem)
  : M (list (gmap string pystr)) :=
  match elems with
  | [] => mret []
  | pe :: rest =>
      o ← parse_post_elem board pe;
      posts ← parse_post_elems board rest;
      mret (match o with Some post => post :: posts | None => posts end)
  end.

(** The address of the index page of a board. *)
Definition index_url (board : Board) : pystr :=
  if endswith (url board) (lit ".html") then url board
  else rstrip_slash (url board) ++ lit "/index.html".

(** [get_board_posts(board)] *)
Definition get_board_posts (bw : BoardWorld) (board : Board)
  : M (Board * list (gmap string pystr)) :=
  call EvNewPage (pg_open (bw_page bw));;
  try_finally
    (try_except
       (call (EvGoto (index_url board) PAGE_TIMEOUT) (pg_goto (bw_page bw));;
        ok ← handle_page_setup (bw_page bw) 0;
        if negb ok then mret (board, []) else
        call (EvWaitSelector ".r-ent" 10000) (bw_wait bw);;
        article_elements ← call (EvQuery ".r-ent") (bw_all bw);
        posts ← parse_post_elems board (take ARTICLES_PER_BOARD article_elements);
        mret (board, posts))
       (λ _, mret (board, [])))
    (call EvClose (pg_close (bw_page bw))).

(** ** Discovering the boards *)

(** [get_default_boards()] *)
Definition default_boards : list Board :=
  [ mkBoard (lit "Gossiping") (lit "https://www.ptt.cc/bbs/Gossiping/");
    mkBoard (lit "Stock") (lit "https://www.ptt.cc/bbs/Stock/");
    mkBoard (lit "NBA") (lit "https://www.ptt.cc/bbs/NBA/");
    mkBoard (lit "Baseball") (lit "https://www.ptt.cc/bbs/Baseball/");
    mkBoard (lit "C_Chat") (lit "https://www.ptt.cc/bbs/C_Chat/");
    mkBoard (lit "PC_Shopping") (lit "https://www.ptt.cc/bbs/PC_Shopping/");
    mkBoard (lit "DC_SALE") (lit "https://www.ptt.cc/bbs/DC_SALE/");
    mkBoard (lit "MobileComm") (lit "https://www.ptt.cc/bbs/MobileComm/");
    mkBoard (lit "Lifeismoney") (lit "https://www.ptt.cc/bbs/Lifeismoney/");
    mkBoard (lit "car") (lit "https://www.ptt.cc/bbs/car/") ].

Definition get_default_boards : list Board := take NUM_BOARDS default_boards.

(** The body of the loop of [get_hotboards] for one [a.board] element. *)
Definition parse_board_elem (be : BoardElem) : M (option Board) :=
  try_except
    (n ← call (EvQuery "div.board-name") (be_name_count be);
     if (0 <? n)%nat then
       bname ← call (EvQuery "div.board-name") (be_name_text be);
       href ← call (EvQuery "a.board") (be_href be);
       match bname, href with
       | Some (c1 :: s1), Some (c2 :: s2) =>
           mret (Some (mkBoard (strip (c1 :: s1))
                               (lit "https://www.ptt.cc" ++ (c2 :: s2))))
       | _, _ => mret None
       end
     else mret None)
    (λ _, mret None).

Fixpoint parse_board_elems (elems : list BoardElem) : M (list Board) :=
  match elems with
  | [] => mret []
  | be :: rest =>
      o ← parse_board_elem be;
      boards ← parse_board_elems rest;
      mret (match o with Some b => b :: boards | None => boards end)
  end.

(** The body of the [try] of [get_hotboards] (lines 131-163). *)
Definition hotboards_body (w : World) : M (list Board) :=
  call (EvGoto (lit "https://www.ptt.cc/bbs/hotboards.html") PAGE_TIMEOUT)
       (pg_goto (w_hot_page w));;
  ok ← handle_page_setup (w_hot_page w) 0;
  if negb ok then mret get_default_boards else
  call (EvWaitSelector "a.board" 10000) (w_hot_wait w);;
  board_elements ← call (EvQuery "a.board") (w_hot_all w);
  boards ← parse_board_elems (take NUM_BOARDS board_elements);
  mret (match boards with [] => get_default_boards | _ => boards end).

(** [get_hotboards()] *)
Definition get_hotboards (w : World) : M (list Board) :=
  call EvNewPage (pg_open (w_hot_page w));;
  try_finally
    (try_except (hotboards_body w) (λ _, mret get_default_boards))
    (call EvClose (pg_close (w_hot_page w))).

(** ** One board *)

(** [result.get('status') == 'success'] *)
Definition is_success (r : gmap string pyval) : bool :=
  bool_decide (r !! "status" = Some (VStr (lit "success"))).

(** The loop of lines 419-429 over the gathered results: an exception is
    counted and dropped, a record is kept and counted by its status. *)
Fixpoint collect_articles (results : list (resp (gmap string pyval)))
  : M (list (gmap string pyval)) :=
  match results with
  | [] => mret []
  | inl _ :: rest =>
      modify incr_errors;;
      collect_articles rest
  | inr result :: rest =>
      modify (if is_success result then incr_articles_crawled
              else incr_articles_failed);;
      articles ← collect_articles rest;
      mret (result :: articles)
  end.

(** The tasks of line 414, one per post, in the order of the posts. The
    post at position [i] meets the pages [bw_article bw i]. *)
Definition article_tasks (bw : BoardWorld) (now : nat → nat → pystr)
  (posts : list (gmap string pystr)) : list (M (gmap string pyval)) :=
  imap (λ i post, get_article_detail_with_retry (bw_article bw i) (now i) post)
       posts.

(** [process_board(sem, board)], once the board semaphore is held. *)
Definition process_board (bw : BoardWorld) (now : nat → nat → pystr)
  (board : Board) : M (pystr * list (gmap string pyval)) :=
  call (EvBoard (name board)) (inr ());;
  try_except
    ('(board_result, posts) ← get_board_posts bw board;
     match posts with
     | [] => mret (name board, [])
     | _ =>
         results ← gather (article_tasks bw now posts);
         articles ← collect_articles results;
         modify incr_boards_processed;;
         mret (name board, articles)
     end)
    (λ _, modify incr_errors;; mret (name board, [])).

(** ** All boards *)

(** The loop of lines 465-473: a board enters [boards_data] only with a
    non-empty list of articles. *)
Definition add_board_result
  (boards_data : gmap pystr (list (gmap string pyval)))
  (result : resp (pystr * list (gmap string pyval)))
  : gmap pystr (list (gmap string pyval)) :=
  match result with
  | inl _ => boards_data
  | inr (board_name, []) => boards_data
  | inr (board_name, articles) => <[board_name := articles]> boards_data
  end.

Definition board_tasks (w : World) (ck : Clock) (boards : list Board)
  : list (M (pystr * list (gmap string pyval))) :=
  imap (λ b board, process_board (w_board w b) (ck_article ck b) board) boards.

(** [crawl_all_boards()] *)
Definition crawl_all_boards (w : World) (ck : Clock)
  : M (gmap pystr (list (gmap string pyval))) :=
  modify (set_start_time (ck_start ck));;
  boards ← get_hotboards w;
  match boards with
  | [] => mret ∅
  | _ =>
      results ← gather (board_tasks w ck boards);
      let boards_data := foldl add_board_result ∅ results in
      modify (set_end_time (ck_end ck));;
      mret boards_data
  end.

(** ** The run and the process *)

(** [save_data_async(filename, data)]: the writing itself is the sink's
    business; only whether it raised matters here. *)
Definition save_data_async (w : World) (filename : pystr)
  (data : list (gmap string pyval)) : M bool :=
  match data with
  | [] => mret false
  | _ =>
      try_except
        (call (EvSave filename (length data)) (w_save w filename);;
         mret true)
        (λ _, mret false)
  end.

(** [save_summary_async(boards_data)] *)
Definition save_summary_async (w : World)
  (boards_data : gmap pystr (list (gmap string pyval))) : M bool :=
  try_except (call EvSaveSummary (w_save_summary w);; mret true)
             (λ _, mret false).

(** The save tasks of lines 491-497, one per board and one for the
    summary. *)
Definition save_tasks (w : World)
  (boards_data : gmap pystr (list (gmap string pyval))) : list (M bool) :=
  ((λ '(board_name, articles),
      save_data_async w (board_name ++ lit "_improved.csv") articles)
     <$> map_to_list boards_data)
  ++ [save_summary_async w boards_data].

(** [run()] *)
Definition run (w : World) (ck : Clock) : M bool :=
  try_except
    (boards_data ← crawl_all_boards w ck;
     if bool_decide (boards_data = ∅) then mret false else
     gather (save_tasks w boards_data);;
     mret true)
    (λ _, mret false).

(** [main()]: the exit code of the process. The crawler is set up on
    entry of the [async with] block and cleaned up on every exit of it. *)
Definition main (w : World) (ck : Clock) : M Z :=
  try_except
    (call EvSetupBrowser (w_setup_browser w);;
     try_finally
       (success ← run w ck;
        mret (if success : bool then 0 else 1))
       (call EvCleanup (w_cleanup w)))
    (λ _, mret 1).

(** ** The two semaphores

    The functions above say what each task computes. How the tasks
    interleave is decided by the two semaphores: [board_sem], created in
    [crawl_all_boards] with [CONCURRENT_BOARDS] permits and taken by
    [process_board] for its whole body, and [article_sem], created by
    each [process_board] with [CONCURRENT_ARTICLES] permits and taken by
    each article unit for its whole body. The event loop is free to
    resume any task that can move; a schedule is the list of its
    choices. *)
Module Sched.
Section Sched.
Context {R : Type}.

(** Permits of the two semaphores. *)
Variable board_limit : nat.
Variable article_limit : nat.

(** For board [b], what its article units end with, in the order of
    the tasks of line 414 (the empty list when the listing failed or
    found nothing). *)
Variable results : nat → list R.

(** An article unit: before [async with sem], inside it, finished. *)
Inductive unit_st :=
  | Waiting
  | InFlight
  | Done (r : R).

(** A board task: before [async with sem]; listing its posts; inside
    [gather], with the free permits of its article semaphore and one
    slot per unit; returned. *)
Inductive board_st :=
  | BWaiting
  | BListing
  | BGather (article_sem : nat) (units : list unit_st)
  | BDone (gathered : list R).

Record sys := mkSys {
  board_sem : nat;
  boards : list board_st
}.

Definition init (nboards : nat) : sys :=
  mkSys board_limit (replicate nboards BWaiting).

Inductive action :=
  | BoardAcquire (b : nat)
  | Listed (b : nat)
  | UnitAcquire (b i : nat)
  | UnitRelease (b i : nat)
  | BoardRelease (b : nat).

(** The slots of a finished [gather], in slot order. *)
Fixpoint all_done (units : list unit_st) : option (list R) :=
  match units with
  | [] => Some []
  | Done r :: rest => cons r <$> all_done rest
  | _ :: _ => None
  end.

(** One move of one task; [None] when the task cannot make it. *)
Definition do_action (a : action) (s : sys) : option sys :=
  match a with
  | BoardAcquire b =>
      match boards s !! b, board_sem s with
      | Some BWaiting, S free =>
          Some (mkSys free (<[b := BListing]> (boards s)))
      | _, _ => None
      end
  | Listed b =>
      match boards s !! b with
      | Some BListing =>
          match results b with
          | [] => Some (mkSys (S (board_sem s)) (<[b := BDone []]> (boards s)))
          | rs => Some (mkSys (board_sem s)
                          (<[b := BGather article_limit
                                    (replicate (length rs) Waiting)]>
                             (boards s)))
          end
      | _ => None
      end
  | UnitAcquire b i =>
      match boards s !! b with
      | Some (BGather (S free) units) =>
          match units !! i with
          | Some Waiting =>
              Some (mkSys (board_sem s)
                      (<[b := BGather free (<[i := InFlight]> units)]>
                         (boards s)))
          | _ => None
          end
      | _ => None
      end
  | UnitRelease b i =>
      match boards s !! b with
      | Some (BGather free units) =>
          match units !! i, results b !! i with
          | Some InFlight, Some r =>
              Some (mkSys (board_sem s)
                      (<[b := BGather (S free) (<[i := Done r]> units)]>
                         (boards s)))
          | _, _ => None
          end
      | _ => None
      end
  | BoardRelease b =>
      match boards s !! b with
      | Some (BGather free units) =>
          match all_done units with
          | Some rs =>
              Some (mkSys (S (board_sem s)) (<[b := BDone rs]> (boards s)))
          | None => None
          end
      | _ => None
      end
  end.

(** A schedule, played from a state. *)
Fixpoint run_schedule (sched : list action) (s : sys) : option sys :=
  match sched with
  | [] => Some s
  | a :: rest =>
      match do_action a s with
      | Some s' => run_schedule rest s'
      | None => None
      end
  end.

(** Article units inside their [async with sem], in one board and in
    the whole system. *)
Definition unit_inflight (u : unit_st) : nat :=
  match u with InFlight => 1 | _ => 0 end.

Definition board_inflight (bs : board_st) : nat :=
  match bs with
  | BGather _ units => sum_list (unit_inflight <$> units)
  | _ => 0
  end.

Definition inflight (s : sys) : nat :=
  sum_list (board_inflight <$> boards s).

(** Boards inside their [async with sem]. *)
Definition board_active (bs : board_st) : nat :=
  match bs with
  | BListing | BGather _ _ => 1
  | _ => 0
  end.

Definition active (s : sys) : nat :=
  sum_list (board_active <$> boards s).

End Sched.
End Sched.

(** ** Observations on results and traces *)

(** What an article unit ends with, whatever the counters were. *)
Definition unit_outcome (pages : nat → DetailPage) (now : nat → pystr)
  (post : gmap string pystr) : resp (gmap string pyval) :=
  out (get_article_detail_with_retry pages now post stats0).

(** Attempt [k] on a post ends the unit with a success record. *)
Definition attempt_succeeds (pages : nat → DetailPage) (now : nat → pystr)
  (post : gmap string pystr) (k : nat) : Prop :=
  ∃ r, out (attempt (pages k) (now k) post k stats0) = inr (Return r)
       ∧ is_success r = true.

(** Pages opened in a trace; an attempt opens exactly one. *)
Fixpoint attempts_made (t : list event) : nat :=
  match t with
  | [] => 0
  | EvNewPage :: t' => S (attempts_made t')
  | _ :: t' => attempts_made t'
  end.

(** Time-outs given to [wait_for_load_state], in call order. *)
Fixpoint load_state_timeouts (t : list event) : list Z :=
  match t with
  | [] => []
  | EvLoadState timeout :: t' => timeout :: load_state_timeouts t'
  | _ :: t' => load_state_timeouts t'
  end.

(** Durations given to [asyncio.sleep], in call order. *)
Fixpoint sleeps (t : list event) : list Z :=
  match t with
  | [] => []
  | EvSleep secs :: t' => secs :: sleeps t'
  | _ :: t' => sleeps t'
  end.

(** Boards whose processing started, in start order. *)
Fixpoint boards_started (t : list event) : list pystr :=
  match t with
  | [] => []
  | EvBoard n :: t' => n :: boards_started t'
  | _ :: t' => boards_started t'
  end.

(** The fields a listing gives a post, and the fields a unit sets. *)
Definition input_keys : list string :=
  ["title"; "link"; "author"; "date"; "board"].

Definition result_keys : list string :=
  ["content"; "pushes"; "status"; "retry_count"; "crawl_time"; "error"].

(** A record, a board's records and the records of a run without their
    time stamp. *)
Definition erase_record (r : gmap string pyval) : gmap string pyval :=
  delete "crawl_time" r.

Definition erase_articles (articles : list (gmap string pyval))
  : list (gmap string pyval) :=
  erase_record <$> articles.

Definition erase_crawl_time
  (boards_data : gmap (list N) (list (gmap string pyval)))
  : gmap (list N) (list (gmap string pyval)) :=
  erase_articles <$> boards_data.

(** The posts a board lists (none when the listing raises). *)
Definition listed_posts (bw : BoardWorld) (board : Board)
  : list (gmap string pystr) :=
  match out (get_board_posts bw board stats0) with
  | inr (_, posts) => posts
  | inl _ => []
  end.

(** What the units of a board end with, in the order of its posts. *)
Definition unit_outcomes (bw : BoardWorld) (now : nat → nat → pystr)
  (board : Board) : list (resp (gmap string pyval)) :=
  imap (λ i post, unit_outcome (bw_article bw i) (now i) post)
       (listed_posts bw board).

(** The boards the hot-boards page shows, among its first [NUM_BOARDS]
    elements. *)
Definition found_boards (w : World) : list Board :=
  match w_hot_all w with
  | inr elems =>
      match out (parse_board_elems (take NUM_BOARDS elems) stats0) with
      | inr boards => boards
      | inl _ => []
      end
  | inl _ => []
  end.

(** The boards a run works on (none when [get_hotboards] raises). *)
Definition hot_boards (w : World) : list Board :=
  match out (get_hotboards w stats0) with
  | inr boards => boards
  | inl _ => []
  end.

(** What the task of the board at position [b] ends with. *)
Definition board_result (w : World) (ck : Clock) (b : nat) (board : Board)
  : resp (pystr * list (gmap string pyval)) :=
  out (process_board (w_board w b) (ck_article ck b) board stats0).

(** The fields every record of a unit has. *)
Definition required_keys : list string :=
  ["content"; "pushes"; "status"; "retry_count"].

(** * Properties *)

(** ** Two runs side by side

    [rel_m R m1 m2]: from any two values of the counters, [m1] and [m2]
    make the same calls and end alike, raising the same exception or
    returning values related by [R]. With [m1 = m2] and [R] equality it
    says that the counters influence neither the calls nor the result. *)
Definition rel_out {A} (RA : A → A → Prop) (o1 o2 : resp A) : Prop :=
  match o1, o2 with
  | inl e1, inl e2 => e1 = e2
  | inr a1, inr a2 => RA a1 a2
  | _, _ => False
  end.

Definition rel_m {A} (RA : A → A → Prop) (m1 m2 : M A) : Prop :=
  ∀ s1 s2, rel_out RA (out (m1 s1)) (out (m2 s2)) ∧ tr (m1 s1) = tr (m2 s2).

Definition rel_ctl {A} (RA : A → A → Prop) (c1 c2 : ctl A) : Prop :=
  match c1, c2 with
  | Continue, Continue => True
  | Return a1, Return a2 => RA a1 a2
  | _, _ => False
  end.

(** Two results of board tasks that differ in time stamps only. *)
Definition same_board_result
  (r1 r2 : pystr * list (gmap string pyval)) : Prop :=
  r1.1 = r2.1 ∧ erase_articles r1.2 = erase_articles r2.2.

(** A post with a title. *)
Definition titled (post : gmap string pystr) : Prop :=
  is_Some (post !! "title").

(** The records among gathered results. *)
Definition returned {A} (results : list (resp A)) : list A :=
  omap (λ o, match o with inr a => Some a | inl _ => None end) results.

(** A piece of code that leaves a counter as it found it. *)
Definition keeps {A} (counter : Stats → nat) (m : M A) : Prop :=
  ∀ s, counter (st (m s)) = counter s.

(** ** What the semaphores keep

    A board inside [gather] has as many free permits of its article
    semaphore as units not in flight allow, one slot per unit, and in
    every finished slot what the unit of that slot ends with; a returned
    board holds the results of its units in their order. *)
Definition board_ok {R} (article_limit : nat) (results : nat → list R)
  (b : nat) (bs : @Sched.board_st R) : Prop :=
  match bs with
  | Sched.BGather free units =>
      (free + Sched.board_inflight bs = article_limit)%nat
      ∧ length units = length (results b)
      ∧ ∀ i r, units !! i = Some (Sched.Done r) → results b !! i = Some r
  | Sched.BDone rs => rs = results b
  | _ => True
  end.

(** The permits of the board semaphore and the boards holding one add up
    to its limit, and every board is as above. *)
Definition sched_inv {R} (board_limit article_limit : nat)
  (results : nat → list R) (s : @Sched.sys R) : Prop :=
  (Sched.board_sem s + Sched.active s = board_limit)%nat
  ∧ ∀ b bs, Sched.boards s !! b = Some bs →
            board_ok article_limit results b bs.

(** ** Example worlds *)

(** A page on which every call returns, without an age gate. *)
Definition page_up : Page :=
  mkPage (inr ()) (inr ()) (λ _, inr ()) (inr 0%nat) (inr ()) (inr ()).

(** A page whose navigation times out. *)
Definition page_timeout : Page :=
  mkPage (inr ()) (inl (PlaywrightError (lit "Timeout 30000ms exceeded")))
         (λ _, inr ()) (inr 0%nat) (inr ()) (inr ()).

(** A page that the browser context fails to open. *)
Definition page_unopened : Page :=
  mkPage (inl (PlaywrightError (lit "Target closed"))) (inr ())
         (λ _, inr ()) (inr 0%nat) (inr ()) (inr ()).

Definition detail_up : DetailPage :=
  mkDetailPage page_up (inr ()) (inr ()) (inr 1%nat)
               (inr (Some (lit "hello   world"))) (inr 2%nat).

Definition detail_timeout : DetailPage :=
  mkDetailPage page_timeout (inr ()) (inr ()) (inr 1%nat)
               (inr (Some (lit "hello   world"))) (inr 2%nat).

(** An article that loads on the second attempt. *)
Definition detail_second (retry_count : nat) : DetailPage :=
  match retry_count with
  | 0%nat => detail_timeout
  | _ => detail_up
  end.

Definition example_post : gmap string pystr :=
  listing_record (lit "title") (lit "https://www.ptt.cc/bbs/Stock/M.1.html")
                 (lit "author") (lit "11/04") (lit "Stock").

Definition example_elem : PostElem :=
  mkPostElem (inr 1%nat) (inr (Some (lit " title ")))
             (inr (Some (lit "/bbs/Stock/M.1.html")))
             (inr 1%nat) (inr (Some (lit "author")))
             (inr 1%nat) (inr (Some (lit " 11/04"))).

Definition example_board : Board :=
  mkBoard (lit "Stock") (lit "https://www.ptt.cc/bbs/Stock/index.html").

Definition example_board_elem : BoardElem :=
  mkBoardElem (inr 1%nat) (inr (Some (lit "Stock")))
              (inr (Some (lit "/bbs/Stock/index.html"))).

(** A board with two posts whose articles load at once. *)
Definition board_up : BoardWorld :=
  mkBoardWorld page_up (inr ()) (inr [example_elem; example_elem])
               (λ _ _, detail_up).

(** A board with one post whose article never loads. *)
Definition board_timeout : BoardWorld :=
  mkBoardWorld page_up (inr ()) (inr [example_elem]) (λ _ _, detail_timeout).

(** A board whose index page shows no post. *)
Definition board_empty : BoardWorld :=
  mkBoardWorld page_up (inr ()) (inr []) (λ _ _, detail_up).

(** A site whose hot-boards page is [hot] and shows one board, every
    board of the run answering as [bw]. *)
Definition world_of (hot : Page) (bw : BoardWorld) : World :=
  mkWorld (inr ()) (inr ()) hot (inr ()) (inr [example_board_elem])
          (λ _, bw) (λ _, inr ()) (inr ()).

(** A clock that reads [stamp] at every article. *)
Definition example_clock (stamp : pystr) : Clock :=
  mkClock (lit "2025-01-01 00:00:00") (lit "2025-01-01 00:01:00")
          (λ _ _ _, stamp).

(** What the units of the board at position [b] end with, for the
    scheduler. *)
Definition board_units (w : World) (ck : Clock) (boards : list Board)
  (b : nat) : list (resp (gmap string pyval)) :=
  match boards !! b with
  | Some board => unit_outcomes (w_board w b) (ck_article ck b) board
  | None => []
  end.

(** One board of two units; the second unit finishes first. *)
Definition example_schedule : list Sched.action :=
  [ Sched.BoardAcquire 0; Sched.Listed 0;
    Sched.UnitAcquire 0 1; Sched.UnitAcquire 0 0;
    Sched.UnitRelease 0 1; Sched.UnitRelease 0 0;
    Sched.BoardRelease 0 ].

(** ** Writing a board as CSV

    [save_data_async] writes a header and one line per record; every
    field is put between double quotes, and a double quote inside a
    value is doubled. The functions below are the texts it writes, for
    the list of keys it took from the first record. *)

(** The code points of the double quote, the comma and the new line. *)
Definition QUOTE : N := 34.
Definition COMMA : N := 44.
Definition NEWLINE : N := 10.

(** [str(value)]: a string is itself, an integer its decimal digits. *)
Definition str_of_val (v : pyval) : pystr :=
  match v with
  | VStr s => s
  | VInt n => lit (DecimalString.NilZero.string_of_int (Z.to_int n))
  end.

(** [value.replace(QUOTE, QUOTE QUOTE)] *)
Fixpoint double_quotes (s : pystr) : pystr :=
  match s with
  | [] => []
  | c :: s' =>
      if (c =? QUOTE)%N then QUOTE :: QUOTE :: double_quotes s'
      else c :: double_quotes s'
  end.

(** The f-string that puts a text between double quotes. *)
Definition quoted (s : pystr) : pystr := QUOTE :: s ++ [QUOTE].

(** [','.join(parts)] *)
Fixpoint join_comma (parts : list pystr) : pystr :=
  match parts with
  | [] => []
  | [p] => p
  | p :: rest => p ++ COMMA :: join_comma rest
  end.

(** The header line: the keys between quotes, as they are. *)
Definition csv_header (keys : list string) : pystr :=
  join_comma ((λ key, quoted (lit key)) <$> keys) ++ [NEWLINE].

(** [str(row.get(key, ''))] *)
Definition csv_field (row : gmap string pyval) (key : string) : pystr :=
  str_of_val (default (VStr []) (row !! key)).

(** The line of one record. *)
Definition csv_line (keys : list string) (row : gmap string pyval) : pystr :=
  join_comma ((λ key, quoted (double_quotes (csv_field row key))) <$> keys)
  ++ [NEWLINE].

(** Everything written to the file. *)
Definition csv_text (keys : list string) (data : list (gmap string pyval))
  : pystr :=
  csv_header keys ++ concat (csv_line keys <$> data).

(** Reading a quoted field back, from after its opening quote: the text
    up to the closing quote, a doubled quote standing for one quote, and
    what follows the closing quote. *)
Fixpoint read_quoted (s : pystr) : option (pystr * pystr) :=
  match s with
  | [] => None
  | c :: s' =>
      if (c =? QUOTE)%N then
        match s' with
        | c' :: s'' =>
            if (c' =? QUOTE)%N
            then (λ '(v, rest), (QUOTE :: v, rest)) <$> read_quoted s''
            else Some ([], s')
        | [] => Some ([], [])
        end
      else (λ '(v, rest), (c :: v, rest)) <$> read_quoted s'
  end.

(** Reading a line of at most [n] quoted fields back: the fields, and
    what follows the new line. *)
Fixpoint read_line (n : nat) (s : pystr) : option (list pystr * pystr) :=
  match n, s with
  | S n', c :: s1 =>
      if (c =? QUOTE)%N then
        match read_quoted s1 with
        | Some (v, c' :: rest) =>
            if (c' =? COMMA)%N
            then (λ '(vs, r), (v :: vs, r)) <$> read_line n' rest
            else if (c' =? NEWLINE)%N then Some ([v], rest)
            else None
        | _ => None
        end
      else None
  | _, _ => None
  end.

(** ** The summary of a board

    The entry [save_summary_async] computes for one board. *)
Record BoardSummary := mkBoardSummary {
  total_articles : nat;
  successful_articles : nat;
  failed_articles : nat;
  retried_articles : nat
}.

(** [a.get('status') in ['failed', 'error']] *)
Definition is_failed (a : gmap string pyval) : bool :=
  bool_decide (a !! "status" = Some (VStr (lit "failed"))
               ∨ a !! "status" = Some (VStr (lit "error"))).

(** [a.get('retry_count', 0) > 0]; comparing a string with 0 raises
    [TypeError], here [None]. *)
Definition is_retried (a : gmap string pyval) : option bool :=
  match a !! "retry_count" with
  | None => Some false
  | Some (VInt n) => Some (0 <? n)
  | Some (VStr _) => None
  end.

Definition board_summary (articles : list (gmap string pyval))
  : option BoardSummary :=
  retried ← mapM is_retried articles;
  Some (mkBoardSummary (length articles)
          (length (filter (λ a, is_success a = true) articles))
          (length (filter (λ a, is_failed a = true) articles))
          (length (filter (λ b, b = true) retried))).

(** ** Observations on counters and traces *)

(** The retry count a record carries. *)
Definition retry_count_of (r : gmap string pyval) : Z :=
  match r !! "retry_count" with
  | Some (VInt n) => n
  | _ => 0
  end.

(** The records of a list that are successes, and those that are not. *)
Definition successes (articles : list (gmap string pyval)) : nat :=
  length (filter (λ a, is_success a = true) articles).

Definition non_successes (articles : list (gmap string pyval)) : nat :=
  length (filter (λ a, is_success a ≠ true) articles).


(** Every board of the scheduler has returned. *)
Definition sched_finished {R} (s : @Sched.sys R) : Prop :=
  ∀ b bs, Sched.boards s !! b = Some bs → ∃ rs, bs = Sched.BDone rs.

(** The address every link of the site starts with. *)
Definition SITE : pystr := lit "https://www.ptt.cc".

(** A post, as a listing of [board] gives it. *)
Definition listed_on (board : Board) (post : gmap string pystr) : Prop :=
  ∃ title path author date,
    post = listing_record title (SITE ++ path) author date (name board)
    ∧ path ≠ [].

(** A record of one of the three forms a unit builds, at retry count
    [k]. *)
Definition unit_record (r : gmap string pyval) (k : nat) : Prop :=
  ∃ post, (∃ c p now, r = success_record post c p now k)
          ∨ r = failed_record post k
          ∨ (∃ e, r = error_record post e k).

(** An article whose first attempt fails in the set-up, the early
    [page.close()] of the retry raising as well, and whose second
    attempt loads. *)
Definition detail_flaky (retry_count : nat) : DetailPage :=
  match retry_count with
  | 0%nat =>
      mkDetailPage
        (mkPage (inr ()) (inr ())
                (λ _, inl (PlaywrightError (lit "Timeout 10000ms exceeded")))
                (inr 0%nat) (inr ()) (inr ()))
        (inl (PlaywrightError (lit "Target closed")))
        (inr ()) (inr 1%nat) (inr (Some (lit "hello"))) (inr 0%nat)
  | _ => detail_up
  end.

(** The posts the index page of a board shows, among its first
    [ARTICLES_PER_BOARD] elements. *)
Definition parsed_posts (bw : BoardWorld) (board : Board)
  : list (gmap string pystr) :=
  match bw_all bw with
  | inr elems =>
      match out (parse_post_elems board (take ARTICLES_PER_BOARD elems)
                   stats0) with
      | inr posts => posts
      | inl _ => []
      end
  | inl _ => []
  end.


(** A page that opens and fails to close. *)
Definition page_unclosable : Page :=
  mkPage (inr ()) (inr ()) (λ _, inr ()) (inr 0%nat) (inr ())
         (inl (PlaywrightError (lit "Target closed"))).

(** A page whose set-up fails: the wait for the load state times out. *)
Definition page_slow : Page :=
  mkPage (inr ()) (inr ())
         (λ _, inl (PlaywrightError (lit "Timeout 10000ms exceeded")))
         (inr 0%nat) (inr ()) (inr ()).

(** What the discovery finds on the hot-boards page: nothing at all
    ([None]) when the navigation raises, the set-up answers [False], or
    the wait for the boards or their query raises. *)
Definition discovered (w : World) : option (list Board) :=
  match pg_goto (w_hot_page w),
        out (handle_page_setup (w_hot_page w) 0 stats0),
        w_hot_wait w, w_hot_all w with
  | inr _, inr true, inr _, inr _ => Some (found_boards w)
  | _, _, _, _ => None
  end.

(** The list of boards [get_hotboards] returns when its page opens and
    closes: what the discovery found, or the fallback list when it found
    nothing. *)
Definition boards_to_crawl (w : World) : list Board :=
  match discovered w with
  | Some (board :: boards) => board :: boards
  | _ => get_default_boards
  end.

(** ** Stepping through monadic code *)

Ltac unfold_m :=
  unfold mbind, mret, M_bind, M_ret, bind, ret, raise, try_except,
    try_finally, call, sleep, modify, get_item in *.

(** The call the evaluation of a term is waiting for. *)
Ltac head_of t :=
  lazymatch t with
  | match ?x with _ => _ end => head_of x
  | (match ?x with _ => _ end) _ => head_of x
  | out ?x => head_of x
  | st ?x => head_of x
  | tr ?x => head_of x
  | _ => t
  end.

Ltac step_head :=
  match goal with
  | |- context [match ?x with _ => _ end] =>
      let h := head_of x in destruct h eqn:?
  end.

Ltac run_paths := repeat (step_head; simpl).

(** Replacing one summand. *)
Lemma sum_list_insert {A} (f : A → nat) (l : list A) (i : nat) (x y : A) :
  l !! i = Some y →
  (sum_list (f <$> <[i:=x]> l) + f y = sum_list (f <$> l) + f x)%nat.
Proof.
  revert i. induction l as [|a l IH]; intros [|i] H; simpl in *; try done.
  - injection H as ->. lia.
  - specialize (IH i H). unfold fmap, insert in *. lia.
Qed.

#[local] Arguments success_record : simpl never.
#[local] Arguments failed_record : simpl never.
#[local] Arguments error_record : simpl never.
#[local] Arguments collapse_ws : simpl never.
#[local] Arguments strip : simpl never.
#[local] Arguments lit : simpl never.
#[local] Arguments Z.add : simpl never.
#[local] Arguments Z.mul : simpl never.
#[local] Arguments lookup : simpl never.
#[local] Arguments insert : simpl never.
#[local] Arguments Nat.ltb : simpl never.
#[local] Arguments Nat.eqb : simpl never.
#[local] Arguments take : simpl never.

Section Rel.
Context {A B : Type}.
Implicit Types (RA : A → A → Prop) (RB : B → B → Prop).

Lemma rel_ret RA (a1 a2 : A) : RA a1 a2 → rel_m RA (mret a1) (mret a2).
Proof. intros H s1 s2. by split. Qed.

Lemma rel_raise RA (e : exn) : rel_m RA (raise e) (raise e).
Proof. intros s1 s2. by split. Qed.

Lemma rel_call (ev : event) (answer : resp A) :
  rel_m eq (call ev answer) (call ev answer).
Proof. intros s1 s2. split; [|done]. simpl. by destruct answer. Qed.

Lemma rel_bind RA RB (m1 m2 : M A) (f1 f2 : A → M B) :
  rel_m RA m1 m2 →
  (∀ a1 a2, RA a1 a2 → rel_m RB (f1 a1) (f2 a2)) →
  rel_m RB (m1 ≫= f1) (m2 ≫= f2).
Proof.
  intros Hm Hf s1 s2. unfold mbind, M_bind, bind.
  destruct (Hm s1 s2) as [Ho Ht].
  destruct (m1 s1) as [[e1|a1] s1' t1], (m2 s2) as [[e2|a2] s2' t2];
    simpl in *; try done; subst.
  destruct (Hf a1 a2 Ho s1' s2') as [Ho' Ht'].
  destruct (f1 a1 s1') as [o1 ? t1'], (f2 a2 s2') as [o2 ? t2'].
  simpl in *. by subst.
Qed.

Lemma rel_try_except RA (b1 b2 : M A) (h1 h2 : exn → M A) :
  rel_m RA b1 b2 →
  (∀ e, rel_m RA (h1 e) (h2 e)) →
  rel_m RA (try_except b1 h1) (try_except b2 h2).
Proof.
  intros Hb Hh s1 s2. unfold try_except.
  destruct (Hb s1 s2) as [Ho Ht].
  destruct (b1 s1) as [[e1|a1] s1' t1], (b2 s2) as [[e2|a2] s2' t2];
    simpl in *; try done; subst.
  destruct (Hh e2 s1' s2') as [Ho' Ht'].
  destruct (h1 e2 s1') as [o1 ? t1'], (h2 e2 s2') as [o2 ? t2'].
  simpl in *. by subst.
Qed.

Lemma rel_try_finally RA (b1 b2 : M A) (f1 f2 : M unit) :
  rel_m RA b1 b2 → rel_m eq f1 f2 →
  rel_m RA (try_finally b1 f1) (try_finally b2 f2).
Proof.
  intros Hb Hf s1 s2. unfold try_finally.
  destruct (Hb s1 s2) as [Ho Ht].
  destruct (b1 s1) as [o1 s1' t1], (b2 s2) as [o2 s2' t2]. simpl in *.
  destruct (Hf s1' s2') as [Ho' Ht'].
  destruct (f1 s1') as [[e1|[]] ? t1'], (f2 s2') as [[e2|[]] ? t2'];
    simpl in *; try done; by subst.
Qed.

Lemma rel_gather RA (ts1 ts2 : list (M A)) :
  Forall2 (rel_m RA) ts1 ts2 →
  rel_m (Forall2 (rel_out RA)) (gather ts1) (gather ts2).
Proof.
  induction 1 as [|m1 m2 ts1 ts2 Hm _ IH]; intros s1 s2.
  - split; [|done]. simpl. constructor.
  - simpl. destruct (Hm s1 s2) as [Ho Ht].
    destruct (m1 s1) as [o1 s1' t1], (m2 s2) as [o2 s2' t2]. simpl in *.
    destruct (IH s1' s2') as [Ho' Ht'].
    destruct (gather ts1 s1') as [[e1|r1] ? t1'],
             (gather ts2 s2') as [[e2|r2] ? t2']; simpl in *; try done;
      subst; [by split|].
    split; [by constructor|done].
Qed.
End Rel.

Lemma rel_modify (f g : Stats → Stats) : rel_m eq (modify f) (modify g).
Proof. intros s1 s2. by split. Qed.

Lemma rel_get_item (d : gmap string pystr) (key : string) :
  rel_m eq (get_item d key) (get_item d key).
Proof. intros s1 s2. unfold get_item. by destruct (d !! key). Qed.

Lemma rel_out_eq {A} (o1 o2 : resp A) : rel_out eq o1 o2 ↔ o1 = o2.
Proof.
  destruct o1, o2; simpl; split; try done; try congruence.
Qed.

(** The counters influence neither the calls nor the result. *)
Abbreviation stateless m := (rel_m eq m m).

Lemma stateless_out {A} (m : M A) s1 s2 : stateless m → out (m s1) = out (m s2).
Proof. intros H. apply rel_out_eq, H. Qed.

Lemma stateless_tr {A} (m : M A) s1 s2 : stateless m → tr (m s1) = tr (m s2).
Proof. intros H. apply H. Qed.

(** ** Records *)

Lemma success_record_status post c p now k :
  success_record post c p now k !! "status" = Some (VStr (lit "success")).
Proof.
  unfold success_record.
  by rewrite lookup_insert_ne, lookup_insert_ne, lookup_insert_eq.
Qed.

Lemma failed_record_status post k :
  failed_record post k !! "status" = Some (VStr (lit "failed")).
Proof.
  unfold failed_record. by rewrite lookup_insert_ne, lookup_insert_eq.
Qed.

Lemma error_record_status post e k :
  error_record post e k !! "status" = Some (VStr (lit "error")).
Proof.
  unfold error_record.
  by rewrite lookup_insert_ne, lookup_insert_ne, lookup_insert_eq.
Qed.

Lemma success_record_retry_count post c p now k :
  success_record post c p now k !! "retry_count" = Some (VInt (Z.of_nat k)).
Proof. unfold success_record. by rewrite lookup_insert_eq. Qed.

Lemma failed_record_retry_count post k :
  failed_record post k !! "retry_count" = Some (VInt (Z.of_nat k)).
Proof. unfold failed_record. by rewrite lookup_insert_eq. Qed.

Lemma error_record_retry_count post e k :
  error_record post e k !! "retry_count" = Some (VInt (Z.of_nat k)).
Proof. unfold error_record. by rewrite lookup_insert_eq. Qed.

Lemma is_success_success_record post c p now k :
  is_success (success_record post c p now k) = true.
Proof.
  unfold is_success. rewrite success_record_status. by apply bool_decide_eq_true.
Qed.

Lemma is_success_failed_record post k : is_success (failed_record post k) = false.
Proof.
  unfold is_success. rewrite failed_record_status.
  apply bool_decide_eq_false. by intros [=].
Qed.

Lemma is_success_error_record post e k :
  is_success (error_record post e k) = false.
Proof.
  unfold is_success. rewrite error_record_status.
  apply bool_decide_eq_false. by intros [=].
Qed.

(** The time stamp is the only field of a success record that comes from
    the clock. *)
Lemma erase_success_record post c p now1 now2 k :
  erase_record (success_record post c p now1 k)
  = erase_record (success_record post c p now2 k).
Proof.
  unfold erase_record, success_record.
  rewrite !(delete_insert_ne _ "crawl_time" "retry_count") by done.
  by rewrite !delete_insert_eq.
Qed.

Lemma is_success_erase r : is_success (erase_record r) = is_success r.
Proof.
  unfold is_success, erase_record. by rewrite lookup_delete_ne.
Qed.

(** ** Page set-up *)

(** Set-up never raises, leaves the counters alone, opens no page and
    does not sleep; its first wait uses the time-out of the retry count. *)
Lemma handle_page_setup_spec page k s :
  ∃ b t, handle_page_setup page k s = mkRes (inr b) s t
         ∧ head (load_state_timeouts t) = Some (10000 + Z.of_nat k * 5000)
         ∧ attempts_made t = 0%nat ∧ sleeps t = [] ∧ boards_started t = [].
Proof.
  unfold handle_page_setup. unfold_m. simpl.
  run_paths; eexists _, _; (split; [reflexivity|done]).
Qed.

Lemma stateless_handle_page_setup page k : stateless (handle_page_setup page k).
Proof.
  intros s1 s2.
  destruct (handle_page_setup_spec page k s1) as (b1 & t1 & E1 & _).
  destruct (handle_page_setup_spec page k s2) as (b2 & t2 & E2 & _).
  revert E1 E2. unfold handle_page_setup. unfold_m. simpl.
  run_paths; intros [= <- <-] [= <- <-]; done.
Qed.

(** ** One attempt *)

(** The ways an attempt can end. *)
Lemma attempt_out dp now post k s :
  match out (attempt dp now post k s) with
  | inr Continue => (k < MAX_RETRIES)%nat
  | inr (Return r) =>
      (∃ c p, r = success_record post c p now k)
      ∨ (r = failed_record post k ∧ ¬ (k < MAX_RETRIES)%nat)
      ∨ (∃ e, r = error_record post e k ∧ ¬ (k < MAX_RETRIES)%nat)
  | inl e => e = KeyError "title" ∧ post !! "title" = None
  end.
Proof.
  unfold attempt, attempt_try, attempt_body, attempt_handler,
    handle_page_setup.
  unfold_m. simpl. run_paths.
  all: lazymatch goal with
       | |- (_ < _)%nat => by apply Nat.ltb_lt
       | |- _ ∧ _ => by split
       | |- (∃ c p, success_record _ _ _ _ _ = _) ∨ _ =>
           left; eexists _, _; reflexivity
       | |- _ ∨ (failed_record _ _ = _ ∧ _) ∨ _ =>
           right; left; split; [reflexivity|by apply Nat.ltb_nlt]
       | |- _ ∨ _ ∨ (∃ e, error_record _ _ _ = _ ∧ _) =>
           right; right; eexists; split; [reflexivity|by apply Nat.ltb_nlt]
       end.
Qed.

(** The calls of an attempt: it opens one page, first of all; its first
    wait for the load state uses the time-out of its retry count; when it
    ends with [continue], its last sleep is the retry delay; it sleeps
    for the retry delay or the request delay only; and it starts no
    board. *)
Lemma attempt_trace dp now post k s :
  let r := attempt dp now post k s in
  head (tr r) = Some EvNewPage
  ∧ attempts_made (tr r) = 1%nat
  ∧ (∀ tm, head (load_state_timeouts (tr r)) = Some tm →
           tm = 10000 + Z.of_nat k * 5000)
  ∧ (out r = inr Continue → last (sleeps (tr r)) = Some RETRY_DELAY)
  ∧ (∀ d, d ∈ sleeps (tr r) → d = RETRY_DELAY ∨ d = REQUEST_DELAY)
  ∧ boards_started (tr r) = [].
Proof.
  destruct (attempt dp now post k s) as [o s' t] eqn:E. simpl. revert E.
  unfold attempt, attempt_try, attempt_body, attempt_handler,
    handle_page_setup.
  unfold_m. simpl. run_paths.
  all: intros [= <- <- <-]; simpl.
  all: repeat split; try done; try congruence.
  all: try done.
  all: intros d Hd; simpl in Hd;
    repeat (apply elem_of_cons in Hd; destruct Hd as [->|Hd]; [by auto|]);
    by apply elem_of_nil in Hd.
Qed.

(** Two attempts that differ in the reading of the clock only. *)
Lemma attempt_rel (R : gmap string pyval → gmap string pyval → Prop)
  dp now1 now2 post k :
  (∀ r, R r r) →
  (∀ c p, R (success_record post c p now1 k) (success_record post c p now2 k)) →
  rel_m (rel_ctl R) (attempt dp now1 post k) (attempt dp now2 post k).
Proof.
  intros Hrefl Hsucc s1 s2.
  unfold attempt, attempt_try, attempt_body, attempt_handler,
    handle_page_setup.
  unfold_m. simpl. run_paths.
  all: split; simpl; try done.
Qed.

Lemma rel_ctl_eq {A} (c1 c2 : ctl A) : rel_ctl eq c1 c2 ↔ c1 = c2.
Proof. destruct c1, c2; simpl; split; try done; congruence. Qed.

Lemma attempt_stateless_out dp now post k s1 s2 :
  out (attempt dp now post k s1) = out (attempt dp now post k s2).
Proof.
  destruct (attempt_rel eq dp now now post k (λ _, eq_refl)
              (λ _ _, eq_refl) s1 s2) as [H _].
  destruct (out (attempt dp now post k s1)), (out (attempt dp now post k s2));
    simpl in H; try done; [by subst|].
  f_equal. by apply rel_ctl_eq.
Qed.


(** ** The retry loop *)

Lemma attempts_made_app t1 t2 :
  attempts_made (t1 ++ t2) = (attempts_made t1 + attempts_made t2)%nat.
Proof.
  induction t1 as [|ev t1 IH]; [done|]. destruct ev; simpl; by rewrite ?IH.
Qed.

Lemma boards_started_app t1 t2 :
  boards_started (t1 ++ t2) = boards_started t1 ++ boards_started t2.
Proof.
  induction t1 as [|ev t1 IH]; [done|]. destruct ev; simpl; by rewrite ?IH.
Qed.

(** One turn of the loop. *)
Lemma retry_loop_cons pages now post k rest s :
  retry_loop pages now post (k :: rest) s =
  match attempt (pages k) (now k) post k s with
  | mkRes (inl e) s1 t1 => mkRes (inl e) s1 t1
  | mkRes (inr Continue) s1 t1 =>
      match retry_loop pages now post rest s1 with
      | mkRes o s2 t2 => mkRes o s2 (t1 ++ t2)
      end
  | mkRes (inr (Return r)) s1 t1 => mkRes (inr r) s1 (t1 ++ [])
  end.
Proof.
  simpl. unfold mbind, M_bind, bind.
  by destruct (attempt (pages k) (now k) post k s) as [[e|[|r]] s1 t1].
Qed.

Lemma retry_loop_rel (R : gmap string pyval → gmap string pyval → Prop)
  pages now1 now2 post ks :
  (∀ r, R r r) →
  (∀ c p k, R (success_record post c p (now1 k) k)
              (success_record post c p (now2 k) k)) →
  rel_m R (retry_loop pages now1 post ks) (retry_loop pages now2 post ks).
Proof.
  intros Hrefl Hsucc. induction ks as [|k ks IH]; simpl.
  - by apply rel_ret.
  - apply rel_bind with (RA := rel_ctl R).
    + apply attempt_rel; auto.
    + intros [|r1] [|r2] H; simpl in H; try done; by apply rel_ret.
Qed.

Lemma stateless_unit pages now post :
  stateless (get_article_detail_with_retry pages now post).
Proof. apply retry_loop_rel; auto. Qed.

(** A unit that returns returns from one of its attempts, the first that
    does not end with [continue]; the statement after the loop is never
    reached. *)
Lemma retry_loop_returns pages now post n a s r :
  (0 < n)%nat → (a + n = S MAX_RETRIES)%nat →
  out (retry_loop pages now post (seq a n) s) = inr r →
  ∃ k, (a ≤ k ≤ MAX_RETRIES)%nat
       ∧ (∀ j, (a ≤ j < k)%nat →
               out (attempt (pages j) (now j) post j stats0) = inr Continue)
       ∧ out (attempt (pages k) (now k) post k stats0) = inr (Return r)
       ∧ attempts_made (tr (retry_loop pages now post (seq a n) s))
         = S (k - a).
Proof.
  revert a s. induction n as [|n IH]; intros a s Hn Han; [lia|].
  rewrite <- cons_seq, retry_loop_cons.
  pose proof (attempt_out (pages a) (now a) post a s) as Ho.
  pose proof (attempt_trace (pages a) (now a) post a s) as (_ & Hc & _).
  pose proof (attempt_stateless_out (pages a) (now a) post a s stats0) as Hs.
  destruct (attempt (pages a) (now a) post a s) as [[e|[|r']] s1 t1];
    simpl in *.
  - done.
  - destruct (retry_loop pages now post (seq (S a) n) s1) as [o s2 t2] eqn:E.
    simpl. intros ->.
    destruct (IH (S a) s1) as (k & Hk & Hbefore & Hat & Hmade);
      [lia|lia|by rewrite E|].
    exists k. split; [lia|]. split; [|split; [done|]].
    + intros j Hj. destruct (decide (j = a)) as [->|]; [done|].
      apply Hbefore. lia.
    + rewrite E in Hmade. simpl in Hmade.
      rewrite attempts_made_app, Hc, Hmade. lia.
  - intros [= ->]. exists a. split; [lia|]. split; [intros; lia|].
    split; [done|]. rewrite app_nil_r, Hc. f_equal. lia.
Qed.

(** The form of the record a unit returns. *)
Lemma unit_record_form pages now post s r :
  out (get_article_detail_with_retry pages now post s) = inr r →
  ∃ k, (k ≤ MAX_RETRIES)%nat
       ∧ ((∃ c p, r = success_record post c p (now k) k)
          ∨ r = failed_record post k
          ∨ (∃ e, r = error_record post e k)).
Proof.
  intros H. apply retry_loop_returns in H as (k & Hk & _ & Hat & _);
    [|unfold MAX_RETRIES; lia|done].
  exists k. split; [lia|].
  pose proof (attempt_out (pages k) (now k) post k stats0) as Ho.
  rewrite Hat in Ho.
  destruct Ho as [(c & p & ->)|[[-> _]|(e & -> & _)]]; eauto.
Qed.

(** A post with a title never makes its unit raise. *)
Lemma retry_loop_total pages now post ks s :
  is_Some (post !! "title") →
  ∃ r, out (retry_loop pages now post ks s) = inr r.
Proof.
  intros [title Ht]. revert s. induction ks as [|k ks IH]; intros s.
  - by eexists.
  - rewrite retry_loop_cons.
    pose proof (attempt_out (pages k) (now k) post k s) as Ho.
    destruct (attempt (pages k) (now k) post k s) as [[e|[|r']] s1 t1];
      simpl in *.
    + destruct Ho as [_ Ho]. congruence.
    + destruct (IH s1) as [r Hr].
      destruct (retry_loop pages now post ks s1). simpl in *. by eexists.
    + by eexists.
Qed.

(** The calls of a unit, attempt by attempt. *)
Lemma retry_loop_trace pages now post n a s :
  ∃ ts, tr (retry_loop pages now post (seq a n) s) = concat ts
        ∧ (length ts ≤ n)%nat
        ∧ ∀ j t, ts !! j = Some t →
            head t = Some EvNewPage
            ∧ attempts_made t = 1%nat
            ∧ (∀ tm, head (load_state_timeouts t) = Some tm →
                     tm = 10000 + Z.of_nat (a + j) * 5000)
            ∧ (S j < length ts → last (sleeps t) = Some RETRY_DELAY)%nat
            ∧ (∀ d, d ∈ sleeps t → d = RETRY_DELAY ∨ d = REQUEST_DELAY).
Proof.
  revert a s. induction n as [|n IH]; intros a s.
  - exists []. split; [done|]. split; [done|]. intros j t Hj. done.
  - rewrite <- cons_seq, retry_loop_cons.
    pose proof (attempt_trace (pages a) (now a) post a s)
      as (Hh & Hc & Hl & Hs & Hd & _).
    destruct (attempt (pages a) (now a) post a s) as [[e|[|r']] s1 t1];
      simpl in *.
    + exists [t1]. split; [simpl; by rewrite app_nil_r|]. split; [simpl; lia|].
      intros [|j] t Hj; [|done]. injection Hj as <-.
      rewrite Nat.add_0_r. repeat split; try done. simpl. lia.
    + destruct (IH (S a) s1) as (ts & Hts & Hlen & Hall).
      destruct (retry_loop pages now post (seq (S a) n) s1) as [o s2 t2].
      simpl in *. exists (t1 :: ts).
      split; [simpl; by rewrite Hts|]. split; [simpl; lia|].
      intros [|j] t Hj.
      * injection Hj as <-. rewrite Nat.add_0_r. repeat split; try done.
        intros _. by apply Hs.
      * simpl in Hj. destruct (Hall j t Hj) as (? & ? & Htm & Hlast & ?).
        repeat split; try done.
        -- intros tm. replace (a + S j)%nat with (S a + j)%nat by lia.
           apply Htm.
        -- intros Hlt. apply Hlast. simpl in Hlt. lia.
    + exists [t1]. split; [simpl; by rewrite !app_nil_r|]. split; [simpl; lia|].
      intros [|j] t Hj; [|done]. injection Hj as <-.
      rewrite Nat.add_0_r. repeat split; try done. simpl. lia.
Qed.

(** ** Running bound code *)

Lemma bind_returns {A B} (m : M A) (f : A → M B) s a s1 t1 :
  m s = mkRes (inr a) s1 t1 →
  (m ≫= f) s = match f a s1 with mkRes o s2 t2 => mkRes o s2 (t1 ++ t2) end.
Proof. intros H. unfold mbind, M_bind, bind. by rewrite H. Qed.

Lemma bind_raises {A B} (m : M A) (f : A → M B) s e s1 t1 :
  m s = mkRes (inl e) s1 t1 → (m ≫= f) s = mkRes (inl e) s1 t1.
Proof. intros H. unfold mbind, M_bind, bind. by rewrite H. Qed.

Ltac rel_step :=
  first
    [ apply rel_call
    | apply rel_modify
    | apply rel_get_item
    | apply rel_raise
    | apply rel_ret; reflexivity
    | apply stateless_handle_page_setup
    | apply rel_try_finally
    | apply rel_try_except; [|intros ?]
    | apply rel_bind with (RA := eq); [|intros ? ? <-]
    | match goal with
      | |- rel_m _ (match ?x with _ => _ end) _ => destruct x
      end ].

(** ** Listing the posts of a board *)

Lemma listing_record_titled t l a d b : titled (listing_record t l a d b).
Proof.
  exists t. unfold listing_record.
  rewrite !lookup_insert_ne by done. by rewrite lookup_insert_eq.
Qed.

(** An element is parsed without raising and without touching the
    counters; what it yields is a listing record. *)
Lemma parse_post_elem_spec board pe s :
  ∃ o t, parse_post_elem board pe s = mkRes (inr o) s t
         ∧ boards_started t = []
         ∧ ∀ p, o = Some p → titled p.
Proof.
  unfold parse_post_elem. unfold_m. simpl.
  run_paths; eexists _, _; (split; [reflexivity|]); (split; [done|]);
    intros p' [= <-]; apply listing_record_titled.
Qed.

Lemma stateless_parse_post_elem board pe : stateless (parse_post_elem board pe).
Proof. unfold parse_post_elem. repeat rel_step. Qed.

Lemma parse_post_elems_spec board elems s :
  ∃ posts t, parse_post_elems board elems s = mkRes (inr posts) s t
             ∧ boards_started t = []
             ∧ Forall titled posts
             ∧ (length posts ≤ length elems)%nat.
Proof.
  induction elems as [|pe elems IH]; simpl.
  - by eexists [], [].
  - destruct (parse_post_elem_spec board pe s) as (o & t1 & E1 & Hb1 & Ho).
    destruct IH as (posts & t2 & E2 & Hb2 & Hf & Hlen).
    rewrite (bind_returns _ _ _ _ _ _ E1), (bind_returns _ _ _ _ _ _ E2).
    simpl. eexists _, _. split; [reflexivity|].
    split; [by rewrite !boards_started_app, Hb1, Hb2|].
    destruct o as [p|]; [|split; [done|lia]].
    split; [constructor; auto|simpl; lia].
Qed.

Lemma stateless_parse_post_elems board elems :
  stateless (parse_post_elems board elems).
Proof.
  induction elems as [|pe elems IH]; simpl; [by apply rel_ret|].
  apply rel_bind with (RA := eq); [apply stateless_parse_post_elem|].
  intros o ? <-. apply rel_bind with (RA := eq); [done|].
  intros posts ? <-. by apply rel_ret.
Qed.

(** The listing leaves the counters alone, starts no board, and lists
    titled posts only, at most [ARTICLES_PER_BOARD] of them. *)
Lemma get_board_posts_spec bw board s :
  let r := get_board_posts bw board s in
  st r = s
  ∧ boards_started (tr r) = []
  ∧ ∀ b posts, out r = inr (b, posts) →
      b = board ∧ Forall titled posts
      ∧ (length posts ≤ ARTICLES_PER_BOARD)%nat.
Proof.
  destruct (get_board_posts bw board s) as [o s' t] eqn:E. simpl. revert E.
  unfold get_board_posts. unfold_m. simpl.
  repeat (match goal with
          | |- context [handle_page_setup ?p ?k ?s0] =>
              destruct (handle_page_setup_spec p k s0)
                as (? & ? & -> & _ & _ & _ & ?)
          | |- context [parse_post_elems ?b ?l ?s0] =>
              destruct (parse_post_elems_spec b l s0)
                as (? & ? & -> & ? & ? & ?)
          | _ => step_head
          end; simpl).
  all: intros [= <- <- <-]; simpl.
  all: split; [done|]; split.
  all: rewrite ?boards_started_app, ?app_nil_r; simpl.
  all: repeat match goal with
              | H : boards_started _ = [] |- _ => rewrite ?H; clear H
              end.
  all: try done.
  all: try (intros ? ? [= <- <-]; split; [done|]; split; [done|]).
  all: try (simpl; lia).
  all: match goal with
       | H : (length _ ≤ length (take _ _))%nat |- _ =>
           rewrite length_take in H; lia
       end.
Qed.

Lemma stateless_get_board_posts bw board : stateless (get_board_posts bw board).
Proof.
  unfold get_board_posts.
  repeat first [apply stateless_parse_post_elems | rel_step].
Qed.

(** ** Gathered tasks *)

(** The result of a task does not depend on the tasks before it: every
    slot of [gather] holds what its task ends with. *)
Lemma gather_out {A} (tasks : list (M A)) s :
  Forall (λ m, ∀ s0, out (m s0) = out (m stats0)) tasks →
  out (gather tasks s) = inr ((λ m, out (m stats0)) <$> tasks).
Proof.
  intros H. revert s. induction H as [|m tasks Hm _ IH]; intros s; [done|].
  simpl. specialize (Hm s).
  destruct (m s) as [o s1 t1]. simpl in Hm. subst o.
  specialize (IH s1). destruct (gather tasks s1) as [[e|rs] s2 t2]; simpl in *.
  - done.
  - by injection IH as ->.
Qed.

Lemma gather_boards_started {A} (tasks : list (M A))
  (names : list (list pystr)) s :
  Forall2 (λ m n, ∀ s0, boards_started (tr (m s0)) = n) tasks names →
  boards_started (tr (gather tasks s)) = concat names.
Proof.
  intros H. revert s. induction H as [|m n tasks names Hm _ IH]; intros s;
    [done|].
  simpl. specialize (Hm s). destruct (m s) as [o s1 t1]. simpl in Hm.
  specialize (IH s1). destruct (gather tasks s1) as [[e|rs] s2 t2];
    simpl in *; by rewrite boards_started_app, Hm, IH.
Qed.

(** The records are kept in their order, the exceptions dropped; the
    loop makes no call. *)
Lemma collect_articles_spec results s :
  ∃ s', collect_articles results s = mkRes (inr (returned results)) s' [].
Proof.
  revert s. induction results as [|[e|r] results IH]; intros s; simpl.
  - by eexists.
  - unfold_m. simpl. destruct (IH (incr_errors s)) as [s' ->]. by eexists.
  - unfold_m. simpl.
    destruct (IH ((if is_success r then incr_articles_crawled
                   else incr_articles_failed) s)) as [s' ->].
    by eexists.
Qed.

(** ** One board *)

Lemma retry_loop_boards_started pages now post ks s :
  boards_started (tr (retry_loop pages now post ks s)) = [].
Proof.
  revert s. induction ks as [|k ks IH]; intros s; [done|].
  rewrite retry_loop_cons.
  pose proof (attempt_trace (pages k) (now k) post k s) as (_&_&_&_&_&Hb).
  destruct (attempt (pages k) (now k) post k s) as [[e|[|r']] s1 t1];
    simpl in *; [done| |by rewrite app_nil_r].
  specialize (IH s1). destruct (retry_loop pages now post ks s1).
  simpl in *. by rewrite boards_started_app, Hb, IH.
Qed.

Lemma article_tasks_stateless bw now posts :
  Forall (λ m, ∀ s0, out (m s0) = out (m stats0)) (article_tasks bw now posts).
Proof.
  unfold article_tasks. apply Forall_lookup. intros i m Hm s0.
  apply list_lookup_imap_Some in Hm as (post & _ & ->).
  apply stateless_out, stateless_unit.
Qed.

Lemma article_tasks_out bw now posts :
  (λ m : M (gmap string pyval), out (m stats0)) <$> article_tasks bw now posts
  = imap (λ i post, unit_outcome (bw_article bw i) (now i) post) posts.
Proof. unfold article_tasks. by rewrite fmap_imap. Qed.

Lemma article_tasks_boards_started bw now posts s :
  boards_started (tr (gather (article_tasks bw now posts) s)) = [].
Proof.
  rewrite (gather_boards_started _ (replicate (length posts) [])).
  - induction (length posts); simpl; auto.
  - unfold article_tasks. apply Forall2_same_length_lookup.
    split; [by rewrite length_imap, length_replicate|].
    intros i m n Hm Hn s0.
    apply list_lookup_imap_Some in Hm as (post & _ & ->).
    apply lookup_replicate in Hn as [-> _].
    apply retry_loop_boards_started.
Qed.

(** Every post of a listing has a title, so its unit returns a record. *)
Lemma listed_posts_titled bw board : Forall titled (listed_posts bw board).
Proof.
  unfold listed_posts.
  pose proof (get_board_posts_spec bw board stats0) as (_ & _ & H).
  destruct (out (get_board_posts bw board stats0)) as [e|[b posts]]; [done|].
  by destruct (H b posts eq_refl) as (_ & ? & _).
Qed.

Lemma listed_posts_length bw board :
  (length (listed_posts bw board) ≤ ARTICLES_PER_BOARD)%nat.
Proof.
  unfold listed_posts.
  pose proof (get_board_posts_spec bw board stats0) as (_ & _ & H).
  destruct (out (get_board_posts bw board stats0)) as [e|[b posts]];
    [simpl; unfold ARTICLES_PER_BOARD; lia|].
  by destruct (H b posts eq_refl) as (_ & _ & ?).
Qed.

Lemma unit_outcomes_length bw now board :
  length (unit_outcomes bw now board) = length (listed_posts bw board).
Proof. unfold unit_outcomes. by rewrite length_imap. Qed.

Lemma returned_all {A} (results : list (resp A)) :
  Forall (λ o, ∃ a, o = inr a) results → inr <$> returned results = results.
Proof.
  induction 1 as [|o results [a ->] _ IH]; [done|]. simpl. by f_equal.
Qed.

Lemma unit_outcomes_return bw now board :
  Forall (λ o, ∃ r, o = inr r) (unit_outcomes bw now board).
Proof.
  unfold unit_outcomes. apply Forall_lookup. intros i o Ho.
  apply list_lookup_imap_Some in Ho as (post & Hpost & ->).
  apply retry_loop_total.
  exact (Forall_lookup_1 titled _ _ _ (listed_posts_titled bw board) Hpost).
Qed.

Lemma unit_outcomes_returned bw now board :
  inr <$> returned (unit_outcomes bw now board) = unit_outcomes bw now board.
Proof. apply returned_all, unit_outcomes_return. Qed.

(** The part of a board task after a non-empty listing. *)
Lemma process_posts_spec bw now board posts s :
  let r := (results ← gather (article_tasks bw now posts);
            articles ← collect_articles results;
            modify incr_boards_processed;;
            mret (name board, articles)) s in
  out r = inr (name board,
               returned (imap (λ i post,
                                 unit_outcome (bw_article bw i) (now i) post)
                              posts))
  ∧ boards_started (tr r) = [].
Proof.
  pose proof (gather_out _ s (article_tasks_stateless bw now posts)) as Hg.
  pose proof (article_tasks_boards_started bw now posts s) as Hgb.
  rewrite article_tasks_out in Hg. unfold_m. simpl.
  destruct (gather (article_tasks bw now posts) s) as [[e|rs] s1 t1];
    simpl in *; [done|].
  injection Hg as ->.
  destruct (collect_articles_spec
              (imap (λ i p, unit_outcome (bw_article bw i) (now i) p) posts)
              s1) as [s2 ->].
  simpl. split; [done|]. by rewrite !app_nil_r.
Qed.

(** A board task never raises. It returns the name of the board with the
    records of its units in the order of the listing, and announces the
    board once. *)
Lemma process_board_spec bw now board s :
  let r := process_board bw now board s in
  out r = inr (name board, returned (unit_outcomes bw now board))
  ∧ boards_started (tr r) = [name board].
Proof.
  unfold process_board.
  pose proof (get_board_posts_spec bw board s) as (Hst & Hbs & _).
  pose proof (stateless_out (get_board_posts bw board) s stats0
                (stateless_get_board_posts bw board)) as Hout.
  unfold unit_outcomes, listed_posts. rewrite <- Hout. clear Hout.
  rewrite (bind_returns _ _ s () s [EvBoard (name board)] eq_refl).
  unfold try_except.
  destruct (get_board_posts bw board s) as [[e|[b posts]] s' t] eqn:E;
    simpl in Hst, Hbs; subst s'.
  - rewrite (bind_raises _ _ _ _ _ _ E). simpl. split; [done|].
    by rewrite app_nil_r, Hbs.
  - rewrite (bind_returns _ _ _ _ _ _ E).
    destruct posts as [|post posts]; [simpl; split; [done|]; by rewrite app_nil_r, Hbs|].
    cbv iota.
    pose proof (process_posts_spec bw now board (post :: posts) s) as [Ho Ht].
    cbv zeta in Ho, Ht.
    match type of Ho with out ?r = _ => destruct r as [o2 s2 t2] end.
    simpl in Ho, Ht. subst o2. simpl. split; [done|].
    by rewrite !boards_started_app, Hbs, Ht.
Qed.

(** ** The counter of boards *)

Lemma attempt_keeps_boards_processed dp now post k :
  keeps boards_processed (attempt dp now post k).
Proof.
  intros s. destruct (attempt dp now post k s) as [o s' t] eqn:E. simpl.
  revert E.
  unfold attempt, attempt_try, attempt_body, attempt_handler,
    handle_page_setup.
  unfold_m. simpl. run_paths.
  all: by intros [= <- <- <-].
Qed.

Lemma retry_loop_keeps_boards_processed pages now post ks :
  keeps boards_processed (retry_loop pages now post ks).
Proof.
  induction ks as [|k ks IH]; intros s; [done|].
  rewrite retry_loop_cons.
  pose proof (attempt_keeps_boards_processed (pages k) (now k) post k s) as Ha.
  destruct (attempt (pages k) (now k) post k s) as [[e|[|r']] s1 t1];
    simpl in *; [done| |done].
  specialize (IH s1). destruct (retry_loop pages now post ks s1).
  simpl in *. congruence.
Qed.

Lemma gather_keeps {A} counter (tasks : list (M A)) :
  Forall (keeps counter) tasks → keeps counter (gather tasks).
Proof.
  induction 1 as [|m tasks Hm _ IH]; intros s; [done|].
  simpl. specialize (Hm s). destruct (m s) as [o s1 t1]. simpl in Hm.
  specialize (IH s1). destruct (gather tasks s1) as [[e|rs] s2 t2];
    simpl in *; congruence.
Qed.

Lemma collect_articles_keeps_boards_processed results :
  keeps boards_processed (collect_articles results).
Proof.
  induction results as [|[e|r] results IH]; intros s; simpl; [done| |].
  - unfold_m. simpl. specialize (IH (incr_errors s)).
    by destruct (collect_articles results (incr_errors s)) as [[e'|a] s' t'].
  - unfold_m. simpl.
    specialize (IH ((if is_success r then incr_articles_crawled
                     else incr_articles_failed) s)).
    destruct (collect_articles results _) as [[e|a] s' t']; simpl in *;
      destruct (is_success r); exact IH.
Qed.

Lemma article_tasks_keep_boards_processed bw now posts :
  Forall (keeps boards_processed) (article_tasks bw now posts).
Proof.
  unfold article_tasks. apply Forall_lookup. intros i m Hm.
  apply list_lookup_imap_Some in Hm as (post & _ & ->).
  apply retry_loop_keeps_boards_processed.
Qed.

(** A board is counted when, and only when, its listing has a post. *)
Lemma process_board_boards_processed bw now board s :
  boards_processed (st (process_board bw now board s))
  = match listed_posts bw board with
    | [] => boards_processed s
    | _ :: _ => S (boards_processed s)
    end.
Proof.
  unfold process_board.
  pose proof (get_board_posts_spec bw board s) as (Hst & _ & _).
  pose proof (stateless_out (get_board_posts bw board) s stats0
                (stateless_get_board_posts bw board)) as Hout.
  unfold listed_posts. rewrite <- Hout. clear Hout.
  rewrite (bind_returns _ _ s () s [EvBoard (name board)] eq_refl).
  unfold try_except.
  destruct (get_board_posts bw board s) as [[e|[b posts]] s' t] eqn:E;
    simpl in Hst; subst s'.
  - by rewrite (bind_raises _ _ _ _ _ _ E).
  - rewrite (bind_returns _ _ _ _ _ _ E).
    destruct posts as [|post posts]; [done|]. cbv iota.
    pose proof (gather_keeps _ _
                  (article_tasks_keep_boards_processed bw now (post :: posts))
                  s) as Hg.
    pose proof (gather_out _ s
                  (article_tasks_stateless bw now (post :: posts))) as Hgo.
    unfold_m.
    destruct (gather (article_tasks bw now (post :: posts)) s)
      as [[e|rs] s1 t1]; simpl in Hg, Hgo; [done|].
    pose proof (collect_articles_keeps_boards_processed rs s1) as Hc.
    destruct (collect_articles_spec rs s1) as [s2 Ec]. rewrite Ec in Hc |- *.
    simpl in *. congruence.
Qed.

(** ** Discovering the boards *)

Lemma parse_board_elem_spec be s :
  ∃ o t, parse_board_elem be s = mkRes (inr o) s t ∧ boards_started t = [].
Proof.
  unfold parse_board_elem. unfold_m. simpl.
  run_paths; eexists _, _; (split; [reflexivity|done]).
Qed.

Lemma stateless_parse_board_elem be : stateless (parse_board_elem be).
Proof. unfold parse_board_elem. repeat rel_step. Qed.

Lemma parse_board_elems_spec elems s :
  ∃ boards t, parse_board_elems elems s = mkRes (inr boards) s t
              ∧ boards_started t = [].
Proof.
  induction elems as [|be elems IH]; simpl.
  - by eexists [], [].
  - destruct (parse_board_elem_spec be s) as (o & t1 & E1 & Hb1).
    destruct IH as (boards & t2 & E2 & Hb2).
    rewrite (bind_returns _ _ _ _ _ _ E1), (bind_returns _ _ _ _ _ _ E2).
    simpl. eexists _, _. split; [reflexivity|].
    by rewrite !boards_started_app, Hb1, Hb2.
Qed.

Lemma stateless_parse_board_elems elems : stateless (parse_board_elems elems).
Proof.
  induction elems as [|be elems IH]; simpl; [by apply rel_ret|].
  apply rel_bind with (RA := eq); [apply stateless_parse_board_elem|].
  intros o ? <-. apply rel_bind with (RA := eq); [done|].
  intros boards ? <-. by apply rel_ret.
Qed.

Lemma stateless_hotboards_body w : stateless (hotboards_body w).
Proof.
  unfold hotboards_body.
  repeat first [apply stateless_parse_board_elems | rel_step].
Qed.

Lemma stateless_get_hotboards w : stateless (get_hotboards w).
Proof.
  unfold get_hotboards.
  repeat first [apply stateless_hotboards_body | rel_step].
Qed.

Lemma get_default_boards_length : length get_default_boards = 10%nat.
Proof. reflexivity. Qed.

(** The body of the discovery leaves the counters alone and starts no
    board; what it returns is the fallback list or the boards of the
    page, and never the empty list. *)
Lemma hotboards_body_spec w s :
  let r := hotboards_body w s in
  st r = s ∧ boards_started (tr r) = []
  ∧ ∀ boards, out r = inr boards →
      boards ≠ []
      ∧ (boards = get_default_boards ∨ boards = found_boards w)
      ∧ (found_boards w = [] → boards = get_default_boards).
Proof.
  destruct (hotboards_body w s) as [o s' t] eqn:E. simpl. revert E.
  unfold hotboards_body. unfold_m. simpl.
  repeat (match goal with
          | |- context [handle_page_setup ?p ?k ?s0] =>
              destruct (handle_page_setup_spec p k s0)
                as (? & ? & -> & _ & _ & _ & ?)
          | |- context [parse_board_elems ?l ?s0] =>
              let Hfb := fresh "Hfb" in
              let E := fresh "E" in
              pose proof (stateless_out _ s0 stats0
                            (stateless_parse_board_elems l)) as Hfb;
              destruct (parse_board_elems_spec l s0) as (? & ? & E & ?);
              rewrite E in Hfb |- *; simpl in Hfb
          | _ => step_head
          end; simpl).
  all: intros [= <- <- <-]; simpl.
  all: split; [done|]; split.
  all: rewrite ?boards_started_app, ?app_nil_r; simpl.
  all: repeat match goal with
              | H : boards_started _ = [] |- _ => rewrite ?H; clear H
              end.
  all: try done.
  all: intros ? [= <-]; split; [done|].
  all: try (split; [by left|done]).
  all: unfold found_boards.
  all: repeat match goal with
              | H : w_hot_all _ = _ |- _ => rewrite H; clear H
              | H : inr _ = out _ |- _ => rewrite <- H; clear H
              end.
  all: subst; split; [by right|done].
Qed.

(** [get_hotboards]: the page is opened outside the [try] and closed in
    the final block, so either call can make the discovery raise; when
    both return, the discovery returns a non-empty list, the fallback
    list whenever its body raised or found nothing. *)
Lemma get_hotboards_spec w s :
  let r := get_hotboards w s in
  st r = s ∧ boards_started (tr r) = []
  ∧ (∀ e, pg_open (w_hot_page w) = inl e → out r = inl e)
  ∧ (∀ e, pg_open (w_hot_page w) = inr () → pg_close (w_hot_page w) = inl e →
          out r = inl e)
  ∧ (pg_open (w_hot_page w) = inr () → pg_close (w_hot_page w) = inr () →
     ∃ boards, out r = inr boards ∧ boards ≠ []
       ∧ (boards = get_default_boards ∨ boards = found_boards w)
       ∧ ((∃ e, out (hotboards_body w s) = inl e) ∨ found_boards w = [] →
          boards = get_default_boards)).
Proof.
  unfold get_hotboards.
  pose proof (hotboards_body_spec w s) as (Hst & Hbs & Hout).
  unfold_m. simpl.
  destruct (pg_open (w_hot_page w)) as [e0|[]]; simpl.
  { repeat split; try done. by intros e [= ->]. }
  destruct (hotboards_body w s) as [[e1|boards] s1 t1]; simpl in *; subst s1.
  - destruct (pg_close (w_hot_page w)) as [e2|[]]; simpl;
      (split; [done|]); (split; [by rewrite ?boards_started_app, ?Hbs|]);
      (split; [done|]); (split; [try done; by intros e _ [= ->]|]);
      try done.
    intros _ _. exists get_default_boards. repeat split; auto.
  - destruct (Hout boards eq_refl) as (Hne & Hor & Hfb).
    destruct (pg_close (w_hot_page w)) as [e2|[]]; simpl;
      (split; [done|]); (split; [by rewrite ?boards_started_app, ?Hbs|]);
      (split; [done|]); (split; [try done; by intros e _ [= ->]|]);
      try done.
    intros _ _. exists boards. repeat split; auto.
    intros [[e He]|Hf]; [done|auto].
Qed.

(** ** All boards *)

Lemma process_board_out bw now board s :
  out (process_board bw now board s) = out (process_board bw now board stats0).
Proof.
  destruct (process_board_spec bw now board s) as [-> _].
  by destruct (process_board_spec bw now board stats0) as [-> _].
Qed.

Lemma board_result_eq w ck b board :
  board_result w ck b board
  = inr (name board,
         returned (unit_outcomes (w_board w b) (ck_article ck b) board)).
Proof. apply process_board_spec. Qed.

Lemma board_tasks_out_indep w ck boards :
  Forall (λ m, ∀ s0, out (m s0) = out (m stats0)) (board_tasks w ck boards).
Proof.
  unfold board_tasks. apply Forall_lookup. intros i m Hm s0.
  apply list_lookup_imap_Some in Hm as (board & _ & ->).
  apply process_board_out.
Qed.

Lemma board_tasks_out w ck boards :
  (λ m : M (pystr * list (gmap string pyval)), out (m stats0))
    <$> board_tasks w ck boards
  = imap (board_result w ck) boards.
Proof. unfold board_tasks. by rewrite fmap_imap. Qed.

Lemma concat_singletons {A B} (f : A → B) (l : list A) :
  concat ((λ a, [f a]) <$> l) = f <$> l.
Proof. induction l as [|a l IH]; [done|]. simpl. by f_equal. Qed.

Lemma board_tasks_boards_started w ck boards s :
  boards_started (tr (gather (board_tasks w ck boards) s)) = name <$> boards.
Proof.
  rewrite (gather_boards_started _ ((λ b, [name b]) <$> boards)).
  - apply concat_singletons.
  - unfold board_tasks. apply Forall2_same_length_lookup.
    split; [by rewrite length_imap, length_fmap|].
    intros i m n Hm Hn s0.
    apply list_lookup_imap_Some in Hm as (board & Hb & ->).
    rewrite list_lookup_fmap, Hb in Hn. injection Hn as <-.
    apply process_board_spec.
Qed.

(** [gather] itself never raises. *)
Lemma gather_returns {A} (tasks : list (M A)) s :
  ∃ rs, out (gather tasks s) = inr rs.
Proof.
  revert s. induction tasks as [|m tasks IH]; intros s; [by eexists|].
  simpl. destruct (m s) as [o s1 t1]. destruct (IH s1) as [rs Hrs].
  destruct (gather tasks s1) as [[e|rs'] s2 t2]; simpl in *; [done|].
  by eexists.
Qed.

(** The part of [crawl_all_boards] after a non-empty discovery. *)
Lemma crawl_boards_spec w ck boards s :
  let r := (results ← gather (board_tasks w ck boards);
            let boards_data := foldl add_board_result ∅ results in
            modify (set_end_time (ck_end ck));;
            mret boards_data) s in
  out r = inr (foldl add_board_result ∅ (imap (board_result w ck) boards))
  ∧ boards_started (tr r) = name <$> boards.
Proof.
  pose proof (gather_out _ s (board_tasks_out_indep w ck boards)) as Hg.
  pose proof (board_tasks_boards_started w ck boards s) as Hgb.
  rewrite board_tasks_out in Hg. unfold_m. simpl.
  destruct (gather (board_tasks w ck boards) s) as [[e|rs] s1 t1];
    simpl in *; [done|].
  injection Hg as ->. split; [done|]. by rewrite !app_nil_r.
Qed.

(** What a crawl returns, and the boards it starts: the discovery decides
    whether it raises, and every board of the discovery is started, in
    the order of the discovery. *)
Lemma crawl_all_boards_spec w ck s :
  let r := crawl_all_boards w ck s in
  out r = match out (get_hotboards w stats0) with
          | inl e => inl e
          | inr boards =>
              inr (foldl add_board_result ∅ (imap (board_result w ck) boards))
          end
  ∧ boards_started (tr r) = name <$> hot_boards w.
Proof.
  unfold crawl_all_boards, hot_boards.
  rewrite (bind_returns _ _ s () (set_start_time (ck_start ck) s) [] eq_refl).
  pose proof (get_hotboards_spec w (set_start_time (ck_start ck) s))
    as (_ & Hbs & _).
  pose proof (stateless_out (get_hotboards w) (set_start_time (ck_start ck) s)
                stats0 (stateless_get_hotboards w)) as Hout.
  rewrite <- Hout. clear Hout.
  destruct (get_hotboards w (set_start_time (ck_start ck) s))
    as [[e|boards] s1 t1] eqn:E; simpl in Hbs.
  - rewrite (bind_raises _ _ _ _ _ _ E). simpl. by rewrite Hbs.
  - rewrite (bind_returns _ _ _ _ _ _ E).
    destruct boards as [|board boards]; [simpl; by rewrite app_nil_r, Hbs|].
    cbv iota.
    pose proof (crawl_boards_spec w ck (board :: boards) s1) as [Ho Ht].
    cbv zeta in Ho, Ht.
    match type of Ho with out ?r = _ => destruct r as [o2 s2 t2] end.
    simpl in Ho, Ht. subst o2. simpl. split; [done|].
    by rewrite !boards_started_app, Hbs, Ht.
Qed.

(** ** What enters the table of boards *)

Lemma add_board_result_empty d result :
  add_board_result d result = ∅ →
  d = ∅ ∧ ∀ n articles, result = inr (n, articles) → articles = [].
Proof.
  destruct result as [e|[n [|a articles]]]; simpl; intros H.
  - split; [done|]. intros ? ? [=].
  - split; [done|]. by intros ? ? [= _ <-].
  - by apply insert_non_empty in H.
Qed.

Lemma foldl_add_board_result_empty results d :
  foldl add_board_result d results = ∅ ↔
  d = ∅ ∧ ∀ n articles, inr (n, articles) ∈ results → articles = [].
Proof.
  revert d. induction results as [|r results IH]; intros d; simpl.
  - split; [|by intros [-> _]].
    intros ->. split; [done|]. intros ? ? H. by apply elem_of_nil in H.
  - rewrite IH. split.
    + intros [Hd Hall]. apply add_board_result_empty in Hd as [-> Hr].
      split; [done|]. intros n articles Hin.
      apply elem_of_cons in Hin as [<-|Hin]; [by eapply Hr|by eapply Hall].
    + intros [-> Hall]. split.
      * destruct r as [e|[n [|a articles]]]; simpl; try done.
        specialize (Hall n (a :: articles)). discriminate Hall. left.
      * intros n articles Hin. eapply Hall. by right.
Qed.

(** ** The run and the process *)

Lemma save_tasks_boards_started w d s :
  boards_started (tr (gather (save_tasks w d) s)) = [].
Proof.
  rewrite (gather_boards_started _ (replicate (length (save_tasks w d)) [])).
  - induction (length (save_tasks w d)); simpl; auto.
  - apply Forall2_same_length_lookup.
    split; [by rewrite length_replicate|].
    intros i m n Hm Hn s0. apply lookup_replicate in Hn as [-> _].
    unfold save_tasks in Hm. apply lookup_app_Some in Hm as [Hm|[_ Hm]].
    + rewrite list_lookup_fmap in Hm.
      destruct (map_to_list d !! i) as [[n articles]|]; [|done].
      injection Hm as <-. unfold save_data_async.
      destruct articles; [done|]. unfold_m. simpl.
      by destruct (w_save w _).
    + apply list_lookup_singleton_Some in Hm as [_ <-].
      unfold save_summary_async. unfold_m. simpl.
      by destruct (w_save_summary w).
Qed.

(** [run] never raises; it answers [True] exactly when the crawl returns
    a non-empty table, and starts the boards the crawl starts. *)
Lemma run_spec w ck s :
  let r := run w ck s in
  out r = inr (match out (crawl_all_boards w ck s) with
               | inr d => negb (bool_decide (d = ∅))
               | inl _ => false
               end)
  ∧ boards_started (tr r) = name <$> hot_boards w.
Proof.
  unfold run. pose proof (crawl_all_boards_spec w ck s) as [_ Hbs].
  unfold try_except.
  destruct (crawl_all_boards w ck s) as [[e|d] s1 t1] eqn:E; simpl in Hbs.
  - rewrite (bind_raises _ _ _ _ _ _ E). simpl. by rewrite app_nil_r.
  - rewrite (bind_returns _ _ _ _ _ _ E). simpl.
    destruct (bool_decide (d = ∅)); simpl; [by rewrite app_nil_r|].
    pose proof (save_tasks_boards_started w d s1) as Hs.
    destruct (gather_returns (save_tasks w d) s1) as [rs Hrs].
    unfold_m.
    destruct (gather (save_tasks w d) s1) as [[e|rs'] s2 t2]; simpl in *;
      [done|].
    split; [done|].
    rewrite ?app_nil_r, ?boards_started_app, ?app_nil_r, ?Hbs, ?Hs.
    by rewrite ?app_nil_r.
Qed.

(** The exit code is 0 or 1; it is 0 exactly when the browser was set
    up, the run answered [True] and the clean-up returned. *)
Lemma main_spec w ck s :
  (out (main w ck s) = inr 0 ∨ out (main w ck s) = inr 1)
  ∧ (out (main w ck s) = inr 0 ↔
     w_setup_browser w = inr () ∧ out (run w ck s) = inr true
     ∧ w_cleanup w = inr ()).
Proof.
  unfold main. pose proof (run_spec w ck s) as [Hr _]. unfold_m. simpl.
  destruct (w_setup_browser w) as [e|[]]; simpl.
  { split; [by right|]. split; [done|]. by intros [? _]. }
  destruct (run w ck s) as [[e|b] s1 t1]; simpl in *; [done|].
  destruct (w_cleanup w) as [e|[]]; simpl.
  { split; [by right|]. split; [done|]. by intros (_ & _ & ?). }
  destruct b; simpl.
  - split; [by left|]. by split.
  - split; [by right|]. split; [done|]. by intros (_ & ? & _).
Qed.

(** ** The two semaphores *)

Lemma all_done_Some {R} (units : list (@Sched.unit_st R)) rs :
  Sched.all_done units = Some rs → units = Sched.Done <$> rs.
Proof.
  revert rs. induction units as [|[| |r] units IH]; intros rs; simpl;
    try done.
  - by intros [= <-].
  - destruct (Sched.all_done units) as [rs'|]; simpl; [|done].
    intros [= <-]. simpl. f_equal. by apply IH.
Qed.

Section SchedFacts.
Context {R : Type}.
Variables (board_limit article_limit : nat) (results : nat → list R).

Lemma sched_inv_init nboards :
  sched_inv board_limit article_limit results (Sched.init board_limit nboards).
Proof.
  split; simpl.
  - assert (sum_list (Sched.board_active
                        <$> replicate nboards (@Sched.BWaiting R)) = 0%nat)
      as Hz by (induction nboards; simpl; auto).
    unfold Sched.active. simpl. rewrite Hz. lia.
  - intros b bs Hb. by apply lookup_replicate in Hb as [-> _].
Qed.

Lemma board_ok_fresh b :
  board_ok article_limit results b
    (Sched.BGather article_limit
       (replicate (length (results b)) Sched.Waiting)).
Proof.
  split; [|split].
  - assert (∀ n, sum_list (Sched.unit_inflight
                             <$> replicate n (@Sched.Waiting R)) = 0%nat)
      as Hz by (induction n; simpl; auto).
    unfold Sched.board_inflight. rewrite Hz. lia.
  - by rewrite length_replicate.
  - intros i r' Hi. by apply lookup_replicate in Hi as [? _].
Qed.

Lemma sched_inv_boards (s : @Sched.sys R) b x y free :
  (∀ b' bs, Sched.boards s !! b' = Some bs →
            board_ok article_limit results b' bs) →
  Sched.boards s !! b = Some y →
  board_ok article_limit results b x →
  ∀ b' bs, Sched.boards (Sched.mkSys free (<[b:=x]> (Sched.boards s))) !! b'
           = Some bs →
           board_ok article_limit results b' bs.
Proof.
  intros Hall Hy Hx b' bs. simpl. rewrite list_lookup_insert_Some.
  intros [(<- & <- & _)|[_ Hb]]; [done|by apply Hall].
Qed.

Lemma sched_inv_step a (s s' : @Sched.sys R) :
  sched_inv board_limit article_limit results s →
  Sched.do_action article_limit results a s = Some s' →
  sched_inv board_limit article_limit results s'.
Proof.
  intros [Hsem Hall] Hstep. destruct a as [b|b|b i|b i|b]; simpl in Hstep.
  - destruct (Sched.boards s !! b) as [[| | |]|] eqn:Hb; try done.
    destruct (Sched.board_sem s) as [|free] eqn:Hfree; [done|].
    injection Hstep as <-. split.
    + unfold Sched.active in *. simpl.
      pose proof (sum_list_insert Sched.board_active _ _ Sched.BListing _ Hb).
      simpl in *. lia.
    + by apply (sched_inv_boards _ _ _ _ _ Hall Hb).
  - destruct (Sched.boards s !! b) as [[| | |]|] eqn:Hb; try done.
    destruct (results b) as [|r rs] eqn:Hr; injection Hstep as <-; split.
    + unfold Sched.active in *. simpl.
      pose proof (sum_list_insert Sched.board_active _ _ (Sched.BDone []) _ Hb).
      simpl in *. lia.
    + apply (sched_inv_boards _ _ _ _ _ Hall Hb). unfold board_ok.
      by rewrite Hr.
    + unfold Sched.active in *. simpl.
      pose proof (sum_list_insert Sched.board_active _ _
                    (Sched.BGather article_limit
                       (replicate (length (r :: rs)) Sched.Waiting)) _ Hb).
      simpl in *. lia.
    + apply (sched_inv_boards _ _ _ _ _ Hall Hb).
      pose proof (board_ok_fresh b) as Hok. by rewrite Hr in Hok.
  - destruct (Sched.boards s !! b) as [[| |[|free] units|]|] eqn:Hb; try done.
    destruct (units !! i) as [[| |]|] eqn:Hi; try done.
    injection Hstep as <-. destruct (Hall b _ Hb) as (Hfree & Hlen & Hdone).
    split.
    + unfold Sched.active in *. simpl.
      pose proof (sum_list_insert Sched.board_active _ _
                    (Sched.BGather free (<[i:=Sched.InFlight]> units)) _ Hb).
      simpl in *. lia.
    + apply (sched_inv_boards _ _ _ _ _ Hall Hb). split; [|split].
      * simpl in *.
        pose proof (sum_list_insert Sched.unit_inflight _ _
                      Sched.InFlight _ Hi). simpl in *. lia.
      * by rewrite length_insert.
      * intros j r Hj. apply list_lookup_insert_Some in Hj
          as [(_ & ? & _)|[_ Hj]]; [done|by apply Hdone].
  - destruct (Sched.boards s !! b) as [[| |free units|]|] eqn:Hb; try done.
    destruct (units !! i) as [[| |]|] eqn:Hi; try done.
    destruct (results b !! i) as [r|] eqn:Hr; [|done].
    injection Hstep as <-. destruct (Hall b _ Hb) as (Hfree & Hlen & Hdone).
    split.
    + unfold Sched.active in *. simpl.
      pose proof (sum_list_insert Sched.board_active _ _
                    (Sched.BGather (S free) (<[i:=Sched.Done r]> units)) _ Hb).
      simpl in *. lia.
    + apply (sched_inv_boards _ _ _ _ _ Hall Hb). split; [|split].
      * simpl in *.
        pose proof (sum_list_insert Sched.unit_inflight _ _
                      (Sched.Done r) _ Hi). simpl in *. lia.
      * by rewrite length_insert.
      * intros j r' Hj. apply list_lookup_insert_Some in Hj
          as [(<- & [= <-] & _)|[_ Hj]]; [done|by apply Hdone].
  - destruct (Sched.boards s !! b) as [[| |free units|]|] eqn:Hb; try done.
    destruct (Sched.all_done units) as [rs|] eqn:Hd; [|done].
    injection Hstep as <-. destruct (Hall b _ Hb) as (Hfree & Hlen & Hdone).
    split.
    + unfold Sched.active in *. simpl.
      pose proof (sum_list_insert Sched.board_active _ _
                    (Sched.BDone rs) _ Hb).
      simpl in *. lia.
    + apply (sched_inv_boards _ _ _ _ _ Hall Hb). unfold board_ok.
      apply all_done_Some in Hd as ->. rewrite length_fmap in Hlen.
      apply list_eq. intros i. destruct (rs !! i) as [r|] eqn:Hi.
      * symmetry. apply Hdone. by rewrite list_lookup_fmap, Hi.
      * symmetry. apply lookup_ge_None. rewrite <- Hlen.
        by apply lookup_ge_None.
Qed.

Lemma sched_inv_run sched (s s' : @Sched.sys R) :
  sched_inv board_limit article_limit results s →
  Sched.run_schedule article_limit results sched s = Some s' →
  sched_inv board_limit article_limit results s'.
Proof.
  revert s. induction sched as [|a sched IH]; intros s Hinv; simpl.
  - by intros [= <-].
  - destruct (Sched.do_action article_limit results a s) as [s1|] eqn:Ha;
      [|done].
    apply IH. by eapply sched_inv_step.
Qed.

Lemma sched_inv_inflight (s : @Sched.sys R) :
  sched_inv board_limit article_limit results s →
  (Sched.inflight s ≤ board_limit * article_limit)%nat.
Proof.
  intros [Hsem Hall].
  assert (Sched.inflight s ≤ Sched.active s * article_limit)%nat; [|nia].
  unfold Sched.inflight, Sched.active. clear Hsem.
  assert (Forall (λ bs, Sched.board_inflight bs
                        ≤ Sched.board_active bs * article_limit)%nat
            (Sched.boards s)) as H.
  { apply Forall_lookup. intros b bs Hb. specialize (Hall b bs Hb).
    destruct bs as [| |free units|]; simpl in *; lia. }
  clear Hall. induction H as [|bs l Hbs _ IH]; simpl; unfold fmap in *; nia.
Qed.

End SchedFacts.

(** ** Two runs with different clocks *)

Lemma unit_outcome_rel pages now1 now2 post :
  rel_out (λ r1 r2, erase_record r1 = erase_record r2)
          (unit_outcome pages now1 post) (unit_outcome pages now2 post).
Proof.
  apply (retry_loop_rel (λ r1 r2, erase_record r1 = erase_record r2));
    [done|].
  intros c p k. apply erase_success_record.
Qed.

Lemma returned_rel {A} (RA : A → A → Prop) (rs1 rs2 : list (resp A)) :
  Forall2 (rel_out RA) rs1 rs2 → Forall2 RA (returned rs1) (returned rs2).
Proof.
  induction 1 as [|[e1|a1] [e2|a2] rs1 rs2 H _ IH]; simpl in *; try done.
  by constructor.
Qed.

Lemma erase_articles_rel l1 l2 :
  Forall2 (λ r1 r2, erase_record r1 = erase_record r2) l1 l2 →
  erase_articles l1 = erase_articles l2.
Proof.
  induction 1 as [|r1 r2 l1 l2 H _ IH]; [done|].
  unfold erase_articles in *. simpl. by f_equal.
Qed.

Lemma unit_outcomes_rel bw now1 now2 board :
  Forall2 (rel_out (λ r1 r2, erase_record r1 = erase_record r2))
          (unit_outcomes bw now1 board) (unit_outcomes bw now2 board).
Proof.
  unfold unit_outcomes. apply Forall2_same_length_lookup.
  split; [by rewrite !length_imap|].
  intros i o1 o2 H1 H2.
  apply list_lookup_imap_Some in H1 as (post & Hp & ->).
  apply list_lookup_imap_Some in H2 as (post' & Hp' & ->).
  rewrite Hp in Hp'. injection Hp' as <-. apply unit_outcome_rel.
Qed.

Lemma board_result_rel w ck1 ck2 b board :
  rel_out same_board_result (board_result w ck1 b board)
                            (board_result w ck2 b board).
Proof.
  rewrite !board_result_eq. split; [done|]. simpl.
  apply erase_articles_rel, returned_rel, unit_outcomes_rel.
Qed.

Lemma erase_add_board_result d n articles :
  erase_crawl_time (add_board_result d (inr (n, articles)))
  = add_board_result (erase_crawl_time d) (inr (n, erase_articles articles)).
Proof.
  destruct articles as [|a articles]; [done|].
  unfold erase_crawl_time. simpl. by rewrite fmap_insert.
Qed.

Lemma foldl_add_board_result_rel rs1 rs2 d1 d2 :
  erase_crawl_time d1 = erase_crawl_time d2 →
  Forall2 (rel_out same_board_result) rs1 rs2 →
  erase_crawl_time (foldl add_board_result d1 rs1)
  = erase_crawl_time (foldl add_board_result d2 rs2).
Proof.
  intros Hd H. revert d1 d2 Hd.
  induction H as [|[e1|[n1 a1]] [e2|[n2 a2]] rs1 rs2 H _ IH]; intros d1 d2 Hd;
    [done|..]; simpl in H; try done.
  - by apply IH.
  - destruct H as [Hn Ha]. simpl in Hn, Ha. subst n2.
    change (foldl add_board_result d1 (inr (n1, a1) :: rs1))
      with (foldl add_board_result (add_board_result d1 (inr (n1, a1))) rs1).
    change (foldl add_board_result d2 (inr (n1, a2) :: rs2))
      with (foldl add_board_result (add_board_result d2 (inr (n1, a2))) rs2).
    apply IH. by rewrite !erase_add_board_result, Hd, Ha.
Qed.

Lemma board_results_rel w ck1 ck2 boards :
  Forall2 (rel_out same_board_result)
          (imap (board_result w ck1) boards) (imap (board_result w ck2) boards).
Proof.
  apply Forall2_same_length_lookup. split; [by rewrite !length_imap|].
  intros i o1 o2 H1 H2.
  apply list_lookup_imap_Some in H1 as (board & Hb & ->).
  apply list_lookup_imap_Some in H2 as (board' & Hb' & ->).
  rewrite Hb in Hb'. injection Hb' as <-. apply board_result_rel.
Qed.

Lemma crawl_all_boards_rel w ck1 ck2 s1 s2 :
  rel_out (λ d1 d2, erase_crawl_time d1 = erase_crawl_time d2)
          (out (crawl_all_boards w ck1 s1)) (out (crawl_all_boards w ck2 s2)).
Proof.
  destruct (crawl_all_boards_spec w ck1 s1) as [-> _].
  destruct (crawl_all_boards_spec w ck2 s2) as [-> _].
  destruct (out (get_hotboards w stats0)) as [e|boards]; simpl; [done|].
  apply foldl_add_board_result_rel, board_results_rel. done.
Qed.

Lemma erase_crawl_time_empty d : erase_crawl_time d = ∅ ↔ d = ∅.
Proof. apply fmap_empty_iff. Qed.

Lemma run_out_rel w ck1 ck2 s1 s2 :
  out (run w ck1 s1) = out (run w ck2 s2).
Proof.
  destruct (run_spec w ck1 s1) as [-> _].
  destruct (run_spec w ck2 s2) as [-> _].
  pose proof (crawl_all_boards_rel w ck1 ck2 s1 s2) as H.
  destruct (out (crawl_all_boards w ck1 s1)) as [e1|d1],
           (out (crawl_all_boards w ck2 s2)) as [e2|d2]; simpl in H; try done.
  do 2 f_equal. apply bool_decide_ext.
  by rewrite <- (erase_crawl_time_empty d1), <- (erase_crawl_time_empty d2), H.
Qed.

(** ** The fields of a record *)

Lemma of_post_lookup post (key : string) :
  of_post post !! key = VStr <$> post !! key.
Proof. unfold of_post. by rewrite lookup_fmap. Qed.

Lemma not_result_key (key : string) :
  key ∉ result_keys →
  key ≠ "content" ∧ key ≠ "pushes" ∧ key ≠ "status" ∧ key ≠ "retry_count"
  ∧ key ≠ "crawl_time" ∧ key ≠ "error".
Proof.
  unfold result_keys. rewrite !not_elem_of_cons. tauto.
Qed.

Lemma input_key_not_result_key (key : string) :
  key ∈ input_keys → key ∉ result_keys.
Proof.
  unfold input_keys, result_keys. intros H.
  repeat (apply elem_of_cons in H as [->|H];
          [rewrite !not_elem_of_cons; repeat split; try done;
           apply not_elem_of_nil|]).
  by apply elem_of_nil in H.
Qed.

Ltac lookup_record :=
  unfold success_record, failed_record, error_record;
  rewrite ?lookup_insert_ne by done;
  rewrite ?lookup_insert_eq, ?of_post_lookup.

(** The fields of the three records a unit returns: the fields outside
    [result_keys] are those of the post; the required fields are set;
    the time stamp is set by a success only and the error text by an
    exhausted exception only. *)
Lemma record_fields post r k now :
  (∃ c p, r = success_record post c p now k) ∨ r = failed_record post k
  ∨ (∃ e, r = error_record post e k) →
  (∀ key, key ∉ result_keys → r !! key = VStr <$> post !! key)
  ∧ (∀ key, key ∈ required_keys → is_Some (r !! key))
  ∧ (is_success r = true → r !! "crawl_time" = Some (VStr now))
  ∧ (is_success r = false →
     r !! "crawl_time" = VStr <$> post !! "crawl_time")
  ∧ (r !! "status" = Some (VStr (lit "error")) → is_Some (r !! "error"))
  ∧ (r !! "status" ≠ Some (VStr (lit "error")) →
     r !! "error" = VStr <$> post !! "error").
Proof.
  intros [(c & p & ->)|[->|(e & ->)]].
  - split; [|split; [|split; [|split; [|split]]]].
    + intros key (?&?&?&?&?&?)%not_result_key. by lookup_record.
    + unfold required_keys. intros key H.
      repeat (apply elem_of_cons in H as [->|H]; [lookup_record; eauto|]).
      by apply elem_of_nil in H.
    + intros _. by lookup_record.
    + by rewrite is_success_success_record.
    + rewrite success_record_status. by intros [=].
    + intros _. by lookup_record.
  - split; [|split; [|split; [|split; [|split]]]].
    + intros key (?&?&?&?&?&?)%not_result_key. by lookup_record.
    + unfold required_keys. intros key H.
      repeat (apply elem_of_cons in H as [->|H]; [lookup_record; eauto|]).
      by apply elem_of_nil in H.
    + by rewrite is_success_failed_record.
    + intros _. by lookup_record.
    + rewrite failed_record_status. by intros [=].
    + intros _. by lookup_record.
  - split; [|split; [|split; [|split; [|split]]]].
    + intros key (?&?&?&?&?&?)%not_result_key. by lookup_record.
    + unfold required_keys. intros key H.
      repeat (apply elem_of_cons in H as [->|H]; [lookup_record; eauto|]).
      by apply elem_of_nil in H.
    + by rewrite is_success_error_record.
    + intros _. by lookup_record.
    + intros _. lookup_record. eauto.
    + by rewrite error_record_status.
Qed.

(** ** What an attempt does with an exception *)

(** An exception raised within an attempt on a post with a title is
    answered by another attempt, or on the last attempt by an error
    record that carries the retry count of that attempt. *)
Lemma attempt_catches dp now post k s e :
  titled post →
  out (attempt_try dp now post k s) = inl e →
  out (attempt dp now post k s)
  = inr (if (k <? MAX_RETRIES)%nat then Continue
         else Return (error_record post e k)).
Proof.
  intros [title Ht]. unfold attempt, try_except, attempt_handler.
  destruct (attempt_try dp now post k s) as [[e'|c] s1 t1]; simpl; [|done].
  intros [= ->]. unfold_m. rewrite Ht.
  by destruct (k <? MAX_RETRIES)%nat.
Qed.

(** A record that is not a success carries the last retry count. *)
Lemma unit_record_last pages now post s r :
  out (get_article_detail_with_retry pages now post s) = inr r →
  is_success r = true
  ∨ r = failed_record post MAX_RETRIES
  ∨ ∃ e, r = error_record post e MAX_RETRIES.
Proof.
  intros H. apply retry_loop_returns in H as (k & Hk & _ & Hat & _);
    [|unfold MAX_RETRIES; lia|done].
  pose proof (attempt_out (pages k) (now k) post k stats0) as Ho.
  rewrite Hat in Ho.
  destruct Ho as [(c & p & ->)|[[-> Hn]|(e & -> & Hn)]].
  - left. apply is_success_success_record.
  - right. left. f_equal. lia.
  - right. right. exists e. f_equal. lia.
Qed.

Lemma attempts_made_concat ts :
  Forall (λ t, attempts_made t = 1%nat) ts →
  attempts_made (concat ts) = length ts.
Proof.
  induction 1 as [|t ts Ht _ IH]; [done|].
  simpl. rewrite attempts_made_app. lia.
Qed.

(** ** When the table of boards is not empty *)

Lemma foldl_add_board_result_nonempty results d :
  foldl add_board_result d results ≠ ∅ ↔
  d ≠ ∅ ∨ ∃ n articles, inr (n, articles) ∈ results ∧ articles ≠ [].
Proof.
  revert d. induction results as [|r results IH]; intros d.
  - split; [by left|]. intros [?|(n & a & H & _)]; [done|].
    by apply elem_of_nil in H.
  - change (foldl add_board_result d (r :: results))
      with (foldl add_board_result (add_board_result d r) results).
    rewrite IH. split.
    + intros [Hd|(n & a & Hin & Hne)].
      * destruct r as [e|[n [|a0 a]]]; simpl in Hd; [by left|by left|].
        right. exists n, (a0 :: a). split; [left|done].
      * right. exists n, a. split; [by right|done].
    + intros [Hd|(n & a & Hin & Hne)].
      * left. destruct r as [e|[n [|a0 a]]]; simpl; try done.
        apply insert_non_empty.
      * apply elem_of_cons in Hin as [<-|Hin].
        -- left. destruct a; [done|]. simpl. apply insert_non_empty.
        -- right. eauto.
Qed.

(** [run] answers [True] exactly when some board of the discovery lists
    a post. *)
Lemma run_true_iff w ck s :
  out (run w ck s) = inr true ↔
  ∃ b board, hot_boards w !! b = Some board
             ∧ listed_posts (w_board w b) board ≠ [].
Proof.
  destruct (run_spec w ck s) as [-> _].
  destruct (crawl_all_boards_spec w ck s) as [-> _].
  unfold hot_boards.
  destruct (out (get_hotboards w stats0)) as [e|boards]; simpl.
  { split; [done|]. by intros (b & board & H & _). }
  split.
  - intros [= H]. apply negb_true_iff, bool_decide_eq_false in H.
    apply foldl_add_board_result_nonempty in H as [H|(n & a & Hin & Hne)];
      [done|].
    apply elem_of_lookup_imap in Hin as (b & board & Heq & Hb).
    exists b, board. split; [done|].
    rewrite board_result_eq in Heq. injection Heq as -> ->.
    intros Hl. apply Hne. unfold unit_outcomes. by rewrite Hl.
  - intros (b & board & Hb & Hne). f_equal.
    apply negb_true_iff, bool_decide_eq_false, foldl_add_board_result_nonempty.
    right.
    exists (name board),
      (returned (unit_outcomes (w_board w b) (ck_article ck b) board)).
    split.
    + apply elem_of_lookup_imap. exists b, board.
      split; [by rewrite board_result_eq|done].
    + intros Hr. apply Hne.
      pose proof (unit_outcomes_returned (w_board w b) (ck_article ck b) board)
        as Hu.
      rewrite Hr in Hu. apply nil_length_inv.
      by rewrite <- (unit_outcomes_length _ (ck_article ck b)), <- Hu.
Qed.

(** ** The calls of an attempt, in full *)


(** ** The attempts a unit makes *)



Lemma sleeps_app t1 t2 : sleeps (t1 ++ t2) = sleeps t1 ++ sleeps t2.
Proof.
  induction t1 as [|ev t1 IH]; [done|]. destruct ev; simpl; by rewrite ?IH.
Qed.


(** ** The discovery, in full *)

(** What the body of the discovery returns is the list the discovery
    found, or the fallback list when it found nothing or did not come to
    look; when the body raises, the discovery found nothing at all. *)
Lemma hotboards_body_out w s :
  match out (hotboards_body w s) with
  | inr boards => boards = boards_to_crawl w
  | inl _ => discovered w = None
  end.
Proof.
  destruct (out (hotboards_body w s)) as [e|boards] eqn:E; revert E.
  all: unfold hotboards_body; unfold_m; simpl.
  all: repeat (match goal with
          | |- context [handle_page_setup ?p ?k ?s0] =>
              let Hps := fresh "Hps" in
              let E := fresh "E" in
              pose proof (stateless_out _ s0 stats0
                            (stateless_handle_page_setup p k)) as Hps;
              destruct (handle_page_setup_spec p k s0) as (? & ? & E & _);
              rewrite E in Hps |- *; simpl in Hps
          | |- context [parse_board_elems ?l ?s0] =>
              let Hfb := fresh "Hfb" in
              let E := fresh "E" in
              pose proof (stateless_out _ s0 stats0
                            (stateless_parse_board_elems l)) as Hfb;
              destruct (parse_board_elems_spec l s0) as (? & ? & E & ?);
              rewrite E in Hfb |- *; simpl in Hfb
          | _ => step_head
          end; simpl).
  all: try done.
  all: intros [= <-].
  all: unfold boards_to_crawl, discovered, found_boards.
  all: repeat match goal with
              | H : pg_goto _ = _ |- _ => rewrite H; clear H
              | H : w_hot_wait _ = _ |- _ => rewrite H; clear H
              | H : w_hot_all _ = _ |- _ => rewrite H; clear H
              | H : inr _ = out _ |- _ => rewrite <- H; clear H
              end.
  all: try done.
  all: repeat match goal with
              | H : negb ?b = _ |- _ => destruct b; simpl in H; try done
              end.
  all: try done.
  all: by subst.
Qed.

(** * The claims *)

(** ** C1: when a run succeeds *)

(** C1, as the code has it. [run] answers [True] exactly when some board
    of the discovery lists at least one post, whatever the statuses of
    the records, and never raises; [main] ends with 0 exactly when the
    browser was set up, [run] answered [True] and the clean-up returned,
    and with 1 otherwise. *)
Theorem run_succeeds_iff_a_board_lists_a_post w ck s :
  (out (run w ck s) = inr true ↔
   ∃ b board, hot_boards w !! b = Some board
              ∧ listed_posts (w_board w b) board ≠ [])
  ∧ (out (run w ck s) = inr true ∨ out (run w ck s) = inr false)
  ∧ (out (main w ck s) = inr 0 ↔
     w_setup_browser w = inr () ∧ out (run w ck s) = inr true
     ∧ w_cleanup w = inr ())
  ∧ (out (main w ck s) = inr 0 ∨ out (main w ck s) = inr 1).
Proof.
  split; [apply run_true_iff|]. split.
  - destruct (run_spec w ck s) as [-> _].
    destruct (out (crawl_all_boards w ck s)) as [e|d]; [by right|].
    destruct (bool_decide (d = ∅)); [by right|by left].
  - destruct (main_spec w ck s) as [Hcode Hzero]. by split.
Qed.

(** C1, counterexample. One board with one post, and every attempt on
    the article times out: the only record is an error record, yet [run]
    answers [True] and the process ends with 0. *)
Lemma run_true_without_a_success :
  let w := world_of page_up board_timeout in
  let ck := example_clock (lit "t") in
  let r := error_record example_post
             (PlaywrightError (lit "Timeout 30000ms exceeded")) 2 in
  out (crawl_all_boards w ck stats0) = inr {[ lit "Stock" := [r] ]}
  ∧ is_success r = false
  ∧ out (run w ck stats0) = inr true
  ∧ out (main w ck stats0) = inr 0.
Proof. repeat split; vm_compute; reflexivity. Qed.

(** ** C2: exceptions inside a unit *)

(** C2, as the code has it. The unit of a post with a title never
    raises. An exception within an attempt is answered by a further
    attempt, and on the last attempt by a record of status [error] that
    carries the last retry count, 2; a record that is not a success is
    the failed or the error record of the last attempt. A board task
    never raises. *)
Theorem unit_answers_exceptions pages now post s :
  titled post →
  (∃ r, out (get_article_detail_with_retry pages now post s) = inr r
        ∧ (is_success r = true
           ∨ r = failed_record post MAX_RETRIES
           ∨ ∃ e, r = error_record post e MAX_RETRIES))
  ∧ (∀ k e s',
       out (attempt_try (pages k) (now k) post k s') = inl e →
       out (attempt (pages k) (now k) post k s')
       = inr (if (k <? MAX_RETRIES)%nat then Continue
              else Return (error_record post e k)))
  ∧ (∀ e, error_record post e MAX_RETRIES !! "retry_count" = Some (VInt 2)
          ∧ error_record post e MAX_RETRIES !! "status"
            = Some (VStr (lit "error")))
  ∧ (∀ bw now' board s',
       ∃ articles,
         out (process_board bw now' board s') = inr (name board, articles)).
Proof.
  intros Ht. split; [|split; [|split]].
  - destruct (retry_loop_total pages now post (seq 0 (MAX_RETRIES + 1)) s Ht)
      as [r Hr].
    exists r. split; [done|]. by eapply unit_record_last.
  - intros k e s' He. by apply attempt_catches.
  - intros e. split; [apply error_record_retry_count|apply error_record_status].
  - intros bw now' board s'. eexists. apply process_board_spec.
Qed.

(** C2, an instance: the post of the examples, every attempt timing
    out. *)
Lemma unit_answers_exceptions_witness :
  titled example_post
  ∧ ∃ r, out (get_article_detail_with_retry (λ _, detail_timeout)
                (λ _, lit "t") example_post stats0) = inr r
         ∧ (is_success r = true
            ∨ r = failed_record example_post MAX_RETRIES
            ∨ ∃ e, r = error_record example_post e MAX_RETRIES).
Proof.
  assert (titled example_post) as Ht by (exists (lit "title"); reflexivity).
  split; [exact Ht|].
  exact (proj1 (unit_answers_exceptions (λ _, detail_timeout) (λ _, lit "t")
                  example_post stats0 Ht)).
Defined.

(** C2, counterexample. Every attempt raises; the unit makes three
    attempts and returns a record of status [error] whose retry count
    is 2, not 0. *)
Lemma unit_error_record_has_last_retry_count :
  let r := error_record example_post
             (PlaywrightError (lit "Timeout 30000ms exceeded")) 2 in
  unit_outcome (λ _, detail_timeout) (λ _, lit "t") example_post = inr r
  ∧ r !! "retry_count" = Some (VInt 2)
  ∧ r !! "status" = Some (VStr (lit "error"))
  ∧ attempts_made
      (tr (get_article_detail_with_retry (λ _, detail_timeout)
             (λ _, lit "t") example_post stats0)) = 3%nat.
Proof. repeat split; vm_compute; reflexivity. Qed.

(** ** C3: one outcome per post, in the order of the posts *)

(** C3. Whatever the permits of the two semaphores and whatever the
    order in which the event loop lets the units proceed and finish,
    a board that has returned holds what its units end with, one result
    per listed post and in the order of the listing; these are the
    records [process_board] returns. *)
Theorem outcomes_in_listing_order (w : World) (ck : Clock)
  (boards : list Board) (board_limit article_limit : nat)
  (sched : list Sched.action) s' b board rs :
  boards !! b = Some board →
  Sched.run_schedule article_limit (board_units w ck boards) sched
    (Sched.init board_limit (length boards)) = Some s' →
  Sched.boards s' !! b = Some (Sched.BDone rs) →
  rs = unit_outcomes (w_board w b) (ck_article ck b) board
  ∧ length rs = length (listed_posts (w_board w b) board)
  ∧ ∀ s, ∃ articles,
      out (process_board (w_board w b) (ck_article ck b) board s)
      = inr (name board, articles)
      ∧ inr <$> articles = rs.
Proof.
  intros Hb Hrun Hdone.
  pose proof (sched_inv_run board_limit article_limit _ sched _ s'
                (sched_inv_init board_limit article_limit _ (length boards))
                Hrun) as [_ Hall].
  specialize (Hall b _ Hdone). simpl in Hall.
  unfold board_units in Hall. rewrite Hb in Hall. subst rs.
  split; [done|]. split; [apply unit_outcomes_length|].
  intros s. eexists. split; [apply process_board_spec|].
  apply unit_outcomes_returned.
Qed.

(** C3, an instance: one board of two posts, whose second unit finishes
    before the first. *)
Lemma outcomes_in_listing_order_witness :
  let w := world_of page_up board_up in
  let ck := example_clock (lit "t") in
  let rs := unit_outcomes board_up (λ _ _, lit "t") example_board in
  rs = unit_outcomes (w_board w 0) (ck_article ck 0) example_board
  ∧ length rs = length (listed_posts (w_board w 0) example_board)
  ∧ ∀ s, ∃ articles,
      out (process_board (w_board w 0) (ck_article ck 0) example_board s)
      = inr (name example_board, articles)
      ∧ inr <$> articles = rs.
Proof.
  apply (outcomes_in_listing_order (world_of page_up board_up)
           (example_clock (lit "t")) [example_board]
           CONCURRENT_BOARDS CONCURRENT_ARTICLES example_schedule
           (Sched.mkSys 3
              [Sched.BDone (unit_outcomes board_up (λ _ _, lit "t")
                              example_board)])
           0 example_board).
  - reflexivity.
  - vm_compute. exact eq_refl.
  - reflexivity.
Defined.

(** ** C4: the retry count of an outcome *)

(** C4. A record a unit returns carries a retry count of at most
    [MAX_RETRIES], the number of the attempt that returned it; the unit
    made no attempt after that one. When the record is a success, that
    attempt is the first one that succeeds. *)
Theorem retry_count_is_first_success pages now post s r :
  out (get_article_detail_with_retry pages now post s) = inr r →
  ∃ k, (k ≤ MAX_RETRIES)%nat
       ∧ r !! "retry_count" = Some (VInt (Z.of_nat k))
       ∧ attempts_made (tr (get_article_detail_with_retry pages now post s))
         = S k
       ∧ (is_success r = true →
          attempt_succeeds pages now post k
          ∧ ∀ j, (j < k)%nat → ¬ attempt_succeeds pages now post j).
Proof.
  intros H. unfold get_article_detail_with_retry in *.
  apply retry_loop_returns in H as (k & Hk & Hbefore & Hat & Hmade);
    [|unfold MAX_RETRIES; lia|done].
  exists k. split; [lia|]. split; [|split].
  - pose proof (attempt_out (pages k) (now k) post k stats0) as Ho.
    rewrite Hat in Ho.
    destruct Ho as [(c & p & ->)|[[-> _]|(e & -> & _)]].
    + apply success_record_retry_count.
    + apply failed_record_retry_count.
    + apply error_record_retry_count.
  - rewrite Hmade. f_equal. lia.
  - intros Hs. split; [by exists r|].
    intros j Hj (r' & Hr' & _). rewrite Hbefore in Hr' by lia. done.
Qed.

(** C4, an instance: the first attempt times out and the second loads
    the article; the record is a success with retry count 1. *)
Lemma retry_count_is_first_success_witness :
  let r := success_record example_post (lit "hello world") 2 (lit "t") 1 in
  ∃ k, (k ≤ MAX_RETRIES)%nat
       ∧ r !! "retry_count" = Some (VInt (Z.of_nat k))
       ∧ attempts_made
           (tr (get_article_detail_with_retry detail_second (λ _, lit "t")
                  example_post stats0)) = S k
       ∧ (is_success r = true →
          attempt_succeeds detail_second (λ _, lit "t") example_post k
          ∧ ∀ j, (j < k)%nat →
                 ¬ attempt_succeeds detail_second (λ _, lit "t")
                     example_post j).
Proof.
  apply (retry_count_is_first_success detail_second (λ _, lit "t")
           example_post stats0).
  vm_compute. exact eq_refl.
Defined.

(** ** C5: attempts, time-outs and delays *)




(** ** C6: a board without posts *)

(** C6, as the code has it. A board task never raises and returns one
    record per listed post. The board enters the table of the run, and
    is counted in [boards_processed], exactly when its listing has a
    post: a board whose listing failed or is empty is skipped and not
    counted. *)
Theorem board_counted_iff_it_lists_a_post bw now board s d :
  ∃ articles,
    out (process_board bw now board s) = inr (name board, articles)
    ∧ length articles = length (listed_posts bw board)
    ∧ add_board_result d (out (process_board bw now board s))
      = (if decide (listed_posts bw board = []) then d
         else <[name board := articles]> d)
    ∧ boards_processed (st (process_board bw now board s))
      = (if decide (listed_posts bw board = []) then boards_processed s
         else S (boards_processed s)).
Proof.
  destruct (process_board_spec bw now board s) as [Ho _].
  eexists. split; [exact Ho|].
  assert (length (returned (unit_outcomes bw now board))
          = length (listed_posts bw board)) as Hlen.
  { rewrite <- (unit_outcomes_length bw now board).
    rewrite <- (unit_outcomes_returned bw now board) at 2.
    by rewrite length_fmap. }
  split; [done|]. rewrite Ho, process_board_boards_processed.
  destruct (listed_posts bw board) as [|post posts] eqn:Hl.
  - destruct (decide _) as [_|]; [|done].
    apply nil_length_inv in Hlen. by rewrite Hlen.
  - destruct (decide _) as [|_]; [done|].
    by destruct (returned (unit_outcomes bw now board)).
Qed.

(** C6, counterexample. The only board of the run shows no post: the
    board is started and returns an empty result, and the run ends with
    [boards_processed] at 0. *)
Lemma board_without_posts_is_not_counted :
  let w := world_of page_up board_empty in
  let ck := example_clock (lit "t") in
  listed_posts board_empty example_board = []
  ∧ out (process_board board_empty (λ _ _, lit "t") example_board stats0)
    = inr (lit "Stock", [])
  ∧ boards_started (tr (run w ck stats0)) = [lit "Stock"]
  ∧ boards_processed (st (run w ck stats0)) = 0%nat.
Proof. repeat split; vm_compute; reflexivity. Qed.

(** ** C7: the fallback list of boards *)

Lemma get_hotboards_out w s :
  out (get_hotboards w s)
  = match pg_open (w_hot_page w) with
    | inl e => inl e
    | inr _ =>
        match pg_close (w_hot_page w) with
        | inl e => inl e
        | inr _ => inr (boards_to_crawl w)
        end
    end.
Proof.
  unfold get_hotboards. pose proof (hotboards_body_out w s) as Hb.
  unfold_m. simpl. destruct (pg_open (w_hot_page w)) as [e|[]]; [done|].
  destruct (hotboards_body w s) as [[e|boards] s1 t1]; simpl in *.
  - unfold boards_to_crawl. rewrite Hb.
    by destruct (pg_close (w_hot_page w)) as [e'|[]].
  - subst boards. by destruct (pg_close (w_hot_page w)) as [e'|[]].
Qed.

Lemma boards_to_crawl_nonempty w : boards_to_crawl w ≠ [].
Proof. unfold boards_to_crawl. by destruct (discovered w) as [[|b bs]|]. Qed.

Lemma discovered_None w s :
  discovered w = None ↔
  (∃ e, pg_goto (w_hot_page w) = inl e)
  ∨ out (handle_page_setup (w_hot_page w) 0 s) = inr false
  ∨ (∃ e, w_hot_wait w = inl e)
  ∨ (∃ e, w_hot_all w = inl e).
Proof.
  unfold discovered.
  rewrite (stateless_out _ s stats0
             (stateless_handle_page_setup (w_hot_page w) 0)).
  destruct (handle_page_setup_spec (w_hot_page w) 0 stats0)
    as (b & t & -> & _). simpl.
  destruct (pg_goto (w_hot_page w)) as [e1|[]], b,
    (w_hot_wait w) as [e3|[]], (w_hot_all w) as [e4|elems];
    split; try done; eauto 6.
  all: by intros [[? [=]]|[[=]|[[? [=]]|[? [=]]]]].
Qed.

(** C7, as the code has it. The page of the discovery is opened outside
    the [try] and closed in the final block: when either call raises,
    [get_hotboards] raises the same exception, no board is started and
    [run] answers [False]. When the page opens and closes,
    [get_hotboards] returns the boards the discovery found, or, whenever
    the discovery found nothing (the navigation raised, the set-up
    answered [False], the wait or the query raised) or found no board,
    the fallback list, which has ten boards; the list is never empty,
    and the run starts every board of it, in its order. *)
Theorem discovery_falls_back w ck s :
  (∀ e, pg_open (w_hot_page w) = inl e
        ∨ pg_open (w_hot_page w) = inr () ∧ pg_close (w_hot_page w) = inl e →
        out (get_hotboards w s) = inl e
        ∧ out (run w ck s) = inr false
        ∧ boards_started (tr (run w ck s)) = [])
  ∧ (pg_open (w_hot_page w) = inr () → pg_close (w_hot_page w) = inr () →
     out (get_hotboards w s) = inr (boards_to_crawl w)
     ∧ boards_started (tr (run w ck s)) = name <$> boards_to_crawl w
     ∧ boards_to_crawl w ≠ []
     ∧ (discovered w = None ∨ discovered w = Some [] →
        boards_to_crawl w = get_default_boards)
     ∧ (∀ board boards, discovered w = Some (board :: boards) →
                        boards_to_crawl w = board :: boards))
  ∧ (discovered w = None ↔
     (∃ e, pg_goto (w_hot_page w) = inl e)
     ∨ out (handle_page_setup (w_hot_page w) 0 s) = inr false
     ∨ (∃ e, w_hot_wait w = inl e)
     ∨ (∃ e, w_hot_all w = inl e))
  ∧ length get_default_boards = 10%nat.
Proof.
  split; [|split; [|split; [apply discovered_None|done]]].
  - intros e He.
    assert (∀ s0, out (get_hotboards w s0) = inl e) as Hraise.
    { intros s0. rewrite get_hotboards_out.
      destruct He as [->|[-> ->]]; done. }
    split; [apply Hraise|].
    destruct (run_spec w ck s) as [-> ->].
    destruct (crawl_all_boards_spec w ck s) as [-> _].
    unfold hot_boards. by rewrite Hraise.
  - intros Hopen Hclose.
    assert (∀ s0, out (get_hotboards w s0) = inr (boards_to_crawl w)) as Hret.
    { intros s0. by rewrite get_hotboards_out, Hopen, Hclose. }
    split; [apply Hret|]. split.
    { destruct (run_spec w ck s) as [_ ->]. unfold hot_boards.
      by rewrite Hret. }
    split; [apply boards_to_crawl_nonempty|].
    unfold boards_to_crawl. split.
    + by intros [->| ->].
    + by intros board boards ->.
Qed.

(** C7, an instance: the set-up of the hot-boards page answers [False];
    the discovery returns the fallback list and the run starts its ten
    boards. *)
Lemma discovery_falls_back_witness :
  let w := world_of page_slow board_up in
  let ck := example_clock (lit "t") in
  discovered w = None
  ∧ out (get_hotboards w stats0) = inr get_default_boards
  ∧ boards_started (tr (run w ck stats0)) = name <$> get_default_boards.
Proof.
  intros w ck.
  assert (discovered w = None) as Hd by (vm_compute; reflexivity).
  destruct (discovery_falls_back w ck stats0) as (_ & Hok & _).
  destruct Hok as (Hout & Hrun & _ & Hdef & _);
    [vm_compute; reflexivity|vm_compute; reflexivity|].
  rewrite (Hdef (or_introl Hd)) in Hout, Hrun. by repeat split.
Defined.

(** C7, counterexample. The browser context fails to open the page of
    the discovery, or the page fails to close: the call is outside the
    [try], or in the final block, so the discovery raises, no board is
    started, [run] answers [False] and the process ends with 1. *)
Lemma discovery_raises_without_fallback :
  let ck := example_clock (lit "t") in
  let w1 := world_of page_unopened board_up in
  let w2 := world_of page_unclosable board_up in
  (out (get_hotboards w1 stats0) = inl (PlaywrightError (lit "Target closed"))
   ∧ boards_started (tr (run w1 ck stats0)) = []
   ∧ out (run w1 ck stats0) = inr false
   ∧ out (main w1 ck stats0) = inr 1)
  ∧ (out (get_hotboards w2 stats0)
     = inl (PlaywrightError (lit "Target closed"))
     ∧ boards_started (tr (run w2 ck stats0)) = []
     ∧ out (run w2 ck stats0) = inr false
     ∧ out (main w2 ck stats0) = inr 1).
Proof. repeat split; vm_compute; reflexivity. Qed.

(** ** C8: units in flight *)

(** C8. Whatever the event loop lets proceed, the units inside their
    semaphore are never more than the product of the two limits: at most
    [board_limit] boards hold the board semaphore, and each of them has
    at most [article_limit] units in flight. *)
Theorem inflight_never_exceeds_product {R : Type}
  (board_limit article_limit : nat) (results : nat → list R)
  (nboards : nat) (sched : list Sched.action) s' :
  Sched.run_schedule article_limit results sched
    (Sched.init board_limit nboards) = Some s' →
  (Sched.inflight s' ≤ board_limit * article_limit)%nat
  ∧ (Sched.active s' ≤ board_limit)%nat
  ∧ ∀ b bs, Sched.boards s' !! b = Some bs →
            (Sched.board_inflight bs ≤ article_limit)%nat.
Proof.
  intros Hrun.
  pose proof (sched_inv_run board_limit article_limit results sched _ s'
                (sched_inv_init board_limit article_limit results nboards)
                Hrun) as Hinv.
  split; [by eapply sched_inv_inflight|].
  destruct Hinv as [Hsem Hall]. split; [lia|].
  intros b bs Hb. specialize (Hall b bs Hb).
  destruct bs as [| |free units|]; simpl in *; lia.
Qed.

(** C8, an instance: the limits of the crawler, one board of two posts,
    both units in flight. *)
Lemma inflight_never_exceeds_product_witness :
  let s' := Sched.mkSys 2 [Sched.BGather 3 [@Sched.InFlight (resp (gmap string pyval));
                                           Sched.InFlight]] in
  Sched.inflight s' = 2%nat
  ∧ (Sched.inflight s' ≤ CONCURRENT_BOARDS * CONCURRENT_ARTICLES)%nat
  ∧ (Sched.active s' ≤ CONCURRENT_BOARDS)%nat
  ∧ ∀ b bs, Sched.boards s' !! b = Some bs →
            (Sched.board_inflight bs ≤ CONCURRENT_ARTICLES)%nat.
Proof.
  split; [reflexivity|].
  apply (inflight_never_exceeds_product CONCURRENT_BOARDS CONCURRENT_ARTICLES
           (board_units (world_of page_up board_up) (example_clock (lit "t"))
              [example_board])
           1 (take 4 example_schedule)).
  vm_compute. exact eq_refl.
Defined.

(** ** C9: two runs against the same site *)

(** C9, as the code has it. Two crawls of the same site, from whatever
    counters and with whatever clocks, raise the same exception or
    return tables that are equal once the time stamps of the records are
    taken out; with the same clock the tables are equal; and the two
    runs give the same answer. *)
Theorem results_equal_up_to_crawl_time w ck1 ck2 s1 s2 :
  rel_out (λ d1 d2, erase_crawl_time d1 = erase_crawl_time d2)
          (out (crawl_all_boards w ck1 s1)) (out (crawl_all_boards w ck2 s2))
  ∧ out (crawl_all_boards w ck1 s1) = out (crawl_all_boards w ck1 s2)
  ∧ out (run w ck1 s1) = out (run w ck2 s2).
Proof.
  split; [apply crawl_all_boards_rel|]. split; [|apply run_out_rel].
  destruct (crawl_all_boards_spec w ck1 s1) as [-> _].
  by destruct (crawl_all_boards_spec w ck1 s2) as [-> _].
Qed.

(** C9, counterexample. The same site crawled at two different times:
    the first record of the board carries the time of its crawl, so the
    two tables differ. *)
Lemma results_differ_in_crawl_time :
  let w := world_of page_up board_up in
  let stamp (o : resp (gmap pystr (list (gmap string pyval)))) :=
    match o with
    | inr d => match d !! lit "Stock" with
               | Some (r :: _) => r !! "crawl_time"
               | _ => None
               end
    | inl _ => None
    end in
  let o1 := out (crawl_all_boards w (example_clock (lit "10:00:00")) stats0) in
  let o2 := out (crawl_all_boards w (example_clock (lit "10:00:01")) stats0) in
  stamp o1 = Some (VStr (lit "10:00:00"))
  ∧ stamp o2 = Some (VStr (lit "10:00:01"))
  ∧ o1 ≠ o2.
Proof.
  intros w stamp o1 o2.
  assert (stamp o1 = Some (VStr (lit "10:00:00"))) as H1
    by (vm_compute; reflexivity).
  assert (stamp o2 = Some (VStr (lit "10:00:01"))) as H2
    by (vm_compute; reflexivity).
  split; [exact H1|]. split; [exact H2|].
  intros H. rewrite H, H2 in H1. vm_compute in H1. discriminate H1.
Qed.

(** ** C10: the fields of a record *)

(** C10, as the code has it. A record a unit returns has every field of
    the post with the value the post gives it, for the five fields of a
    listing and for every field outside [result_keys]; it has the fields
    [content], [pushes], [status] and [retry_count]; it gets a time
    stamp when it is a success and only then, and the text of the
    exception in the field [error] when its status is [error] and only
    then. *)
Theorem unit_keeps_the_fields_of_the_post pages now post s r :
  out (get_article_detail_with_retry pages now post s) = inr r →
  (∀ key, key ∈ input_keys → r !! key = VStr <$> post !! key)
  ∧ (∀ key, key ∉ result_keys → r !! key = VStr <$> post !! key)
  ∧ (∀ key, key ∈ required_keys → is_Some (r !! key))
  ∧ (is_success r = true → is_Some (r !! "crawl_time"))
  ∧ (is_success r = false →
     r !! "crawl_time" = VStr <$> post !! "crawl_time")
  ∧ (r !! "status" = Some (VStr (lit "error")) → is_Some (r !! "error"))
  ∧ (r !! "status" ≠ Some (VStr (lit "error")) →
     r !! "error" = VStr <$> post !! "error").
Proof.
  intros H. apply unit_record_form in H as (k & _ & Hform).
  destruct (record_fields post r k (now k))
    as (Hother & Hreq & Ht & Hnt & He & Hne).
  { destruct Hform as [?|[?|?]]; auto. }
  split; [|split; [done|]; split; [done|]; split; [|done]].
  - intros key Hkey. by apply Hother, input_key_not_result_key.
  - intros Hs. rewrite (Ht Hs). by eexists.
Qed.

(** C10, an instance: the article of the example post loads at once. *)
Lemma unit_keeps_the_fields_of_the_post_witness :
  let r := success_record example_post (lit "hello world") 2 (lit "t") 0 in
  (∀ key, key ∈ input_keys → r !! key = VStr <$> example_post !! key)
  ∧ (∀ key, key ∉ result_keys → r !! key = VStr <$> example_post !! key)
  ∧ (∀ key, key ∈ required_keys → is_Some (r !! key))
  ∧ (is_success r = true → is_Some (r !! "crawl_time"))
  ∧ (is_success r = false →
     r !! "crawl_time" = VStr <$> example_post !! "crawl_time")
  ∧ (r !! "status" = Some (VStr (lit "error")) → is_Some (r !! "error"))
  ∧ (r !! "status" ≠ Some (VStr (lit "error")) →
     r !! "error" = VStr <$> example_post !! "error").
Proof.
  apply (unit_keeps_the_fields_of_the_post (λ _, detail_up) (λ _, lit "t")
           example_post stats0).
  vm_compute. exact eq_refl.
Defined.

(** C10, counterexample. Every attempt raises: the record has a field
    [error], which the post does not have and which is none of
    [content], [pushes], [status], [retry_count] and [crawl_time]. *)
Lemma error_record_adds_a_field :
  let r := error_record example_post
             (PlaywrightError (lit "Timeout 30000ms exceeded")) 2 in
  unit_outcome (λ _, detail_timeout) (λ _, lit "t") example_post = inr r
  ∧ example_post !! "error" = None
  ∧ r !! "error" = Some (VStr (lit "Timeout 30000ms exceeded"))
  ∧ r !! "crawl_time" = None.
Proof. repeat split; vm_compute; reflexivity. Qed.

(** * Further properties of the module *)

(** ** Reading back what [save_data_async] writes *)

Lemma read_quoted_double_quotes v c rest :
  c ≠ QUOTE →
  read_quoted (double_quotes v ++ QUOTE :: c :: rest) = Some (v, c :: rest).
Proof.
  intros Hc. induction v as [|a v IH]; simpl.
  - apply N.eqb_neq in Hc. by rewrite Hc.
  - destruct (a =? QUOTE)%N eqn:Ha; simpl.
    + apply N.eqb_eq in Ha as ->. by rewrite IH.
    + by rewrite Ha, IH.
Qed.

Lemma read_line_join vs rest :
  vs ≠ [] →
  read_line (length vs)
    (join_comma ((λ v, quoted (double_quotes v)) <$> vs) ++ NEWLINE :: rest)
  = Some (vs, rest).
Proof.
  intros Hne. induction vs as [|v vs IH]; [done|]. clear Hne.
  destruct vs as [|v2 vs].
  - simpl. unfold quoted. simpl. rewrite <- app_assoc. simpl.
    by rewrite read_quoted_double_quotes.
  - specialize (IH ltac:(done)).
    change (length (v :: v2 :: vs)) with (S (length (v2 :: vs))).
    change (join_comma ((λ v0, quoted (double_quotes v0)) <$> v :: v2 :: vs))
      with (quoted (double_quotes v)
            ++ COMMA :: join_comma ((λ v0, quoted (double_quotes v0))
                                      <$> v2 :: vs)).
    unfold quoted at 1. cbn [app read_line]. rewrite N.eqb_refl.
    rewrite <- !app_assoc. cbn [app].
    rewrite read_quoted_double_quotes by done.
    rewrite N.eqb_refl, IH. done.
Qed.

(** X1. A line written for a record, read back as quoted fields, gives
    the values of the record for the keys, in the order of the keys,
    whatever quotes, commas or new lines the values hold; nothing of the
    text after the line is consumed. *)
Theorem csv_line_reads_back keys row rest :
  keys ≠ [] →
  read_line (length keys) (csv_line keys row ++ rest)
  = Some (csv_field row <$> keys, rest).
Proof.
  intros Hne. unfold csv_line. rewrite <- app_assoc. simpl.
  pose proof (read_line_join (csv_field row <$> keys) rest) as H.
  rewrite length_fmap, <- list_fmap_compose in H. apply H.
  by destruct keys.
Qed.

(** X1, an instance: a title with a quote and a comma in it, and a
    key the record does not have. *)
Lemma csv_line_reads_back_witness :
  let row : gmap string pyval :=
    {[ "title" := VStr [QUOTE; 104%N; COMMA; 105%N; QUOTE];
       "pushes" := VInt 12 ]} in
  let keys := ["title"; "pushes"; "author"] in
  read_line (length keys) (csv_line keys row ++ lit "next")
  = Some (csv_field row <$> keys, lit "next")
  ∧ csv_field row <$> keys
    = [[QUOTE; 104%N; COMMA; 105%N; QUOTE]; lit "12"; []].
Proof.
  split.
  - apply (csv_line_reads_back ["title"; "pushes"; "author"]). discriminate.
  - vm_compute. reflexivity.
Defined.

(** ** The records of a board and their summary *)

Lemma unit_record_flags r k :
  unit_record r k →
  is_retried r = Some (0 <? Z.of_nat k)
  ∧ retry_count_of r = Z.of_nat k
  ∧ is_failed r = negb (is_success r).
Proof.
  intros (post & [(c & p & now & ->)|[->|(e & ->)]]).
  - unfold is_retried, retry_count_of.
    rewrite success_record_retry_count, is_success_success_record.
    repeat split. unfold is_failed. rewrite success_record_status.
    apply bool_decide_eq_false. by intros [[=]|[=]].
  - unfold is_retried, retry_count_of.
    rewrite failed_record_retry_count, is_success_failed_record.
    repeat split. unfold is_failed. rewrite failed_record_status.
    apply bool_decide_eq_true. by left.
  - unfold is_retried, retry_count_of.
    rewrite error_record_retry_count, is_success_error_record.
    repeat split. unfold is_failed. rewrite error_record_status.
    apply bool_decide_eq_true. by right.
Qed.

Lemma board_records_form bw now board :
  Forall (λ r, ∃ k, (k ≤ MAX_RETRIES)%nat ∧ unit_record r k)
         (returned (unit_outcomes bw now board)).
Proof.
  apply Forall_forall. intros r Hr. unfold returned in Hr.
  apply list_elem_of_omap in Hr as ([e|r'] & Ho & Heq); [done|].
  injection Heq as ->. unfold unit_outcomes in Ho.
  apply elem_of_lookup_imap in Ho as (i & post & Hu & _).
  symmetry in Hu. apply unit_record_form in Hu as (k & Hk & Hform).
  exists k. split; [done|]. exists post.
  destruct Hform as [(c & p & ->)|[->|(e & ->)]]; eauto 6.
Qed.

Lemma mapM_is_retried articles :
  Forall (λ r, ∃ k, (k ≤ MAX_RETRIES)%nat ∧ unit_record r k) articles →
  mapM is_retried articles
  = Some ((λ r, 0 <? retry_count_of r) <$> articles).
Proof.
  induction 1 as [|r articles (k & _ & Hr) _ IH]; [done|].
  destruct (unit_record_flags r k Hr) as (Hret & Hk & _).
  rewrite fmap_cons, Hk. cbn [mapM]. by rewrite Hret, IH.
Qed.

Lemma filter_success_failed articles :
  Forall (λ r, ∃ k, (k ≤ MAX_RETRIES)%nat ∧ unit_record r k) articles →
  (length (filter (λ a, is_success a = true) articles)
   + length (filter (λ a, is_failed a = true) articles)
   = length articles)%nat.
Proof.
  induction 1 as [|r articles (k & _ & Hr) _ IH]; [done|].
  destruct (unit_record_flags r k Hr) as (_ & _ & Hf).
  rewrite !filter_cons. rewrite Hf.
  destruct (is_success r); simpl;
    repeat (destruct (decide _); try done); simpl; lia.
Qed.

(** X2. The summary of the records a board task returns is computed
    without a type error; its total is the number of listed posts, every
    record is counted as successful or as failed and none as both, and
    the retried records are those with a positive retry count. *)
Theorem summary_counts_add_up bw now board s :
  ∃ articles summary,
    out (process_board bw now board s) = inr (name board, articles)
    ∧ board_summary articles = Some summary
    ∧ total_articles summary = length (listed_posts bw board)
    ∧ (successful_articles summary + failed_articles summary
       = total_articles summary)%nat
    ∧ (retried_articles summary ≤ total_articles summary)%nat
    ∧ retried_articles summary
      = length (filter (λ r, 0 < retry_count_of r) articles).
Proof.
  destruct (process_board_spec bw now board s) as [Ho _].
  pose proof (board_records_form bw now board) as Hform.
  set (articles := returned (unit_outcomes bw now board)) in *.
  exists articles. eexists. split; [exact Ho|].
  unfold board_summary. rewrite (mapM_is_retried _ Hform). simpl.
  split; [reflexivity|]. simpl.
  assert (length (filter (λ b, b = true)
                    ((λ r, 0 <? retry_count_of r) <$> articles))
          = length (filter (λ r, 0 < retry_count_of r) articles)) as Hret.
  { clear. induction articles as [|r articles IH]; [done|].
    rewrite fmap_cons, !filter_cons.
    destruct (Z.ltb_spec 0 (retry_count_of r));
      repeat (destruct (decide _); try done; try lia); simpl; by rewrite IH. }
  split; [|split; [by apply filter_success_failed|split; [|done]]].
  - unfold articles. rewrite <- (unit_outcomes_length bw now board).
    rewrite <- (unit_outcomes_returned bw now board) at 2.
    by rewrite length_fmap.
  - rewrite Hret. apply length_filter.
Qed.

(** ** Content and pushes of a record *)

(** X3. A success record holds at most 1000 code points of content and
    a count of pushes that is not negative; a record that is not a
    success has the empty content and no push. *)
Theorem record_content_and_pushes pages now post s r :
  out (get_article_detail_with_retry pages now post s) = inr r →
  (is_success r = true →
   ∃ c p, r !! "content" = Some (VStr c) ∧ (length c ≤ 1000)%nat
          ∧ r !! "pushes" = Some (VInt (Z.of_nat p)))
  ∧ (is_success r = false →
     r !! "content" = Some (VStr []) ∧ r !! "pushes" = Some (VInt 0)).
Proof.
  intros H. apply unit_record_form in H as (k & _ & Hform).
  destruct Hform as [(c & p & ->)|[->|(e & ->)]].
  - split; [|by rewrite is_success_success_record].
    intros _. exists (take 1000 c), p. split; [by lookup_record|].
    split; [|by lookup_record]. rewrite length_take. lia.
  - split; [by rewrite is_success_failed_record|].
    intros _. split; by lookup_record.
  - split; [by rewrite is_success_error_record|].
    intros _. split; by lookup_record.
Qed.

(** X3, an instance: the article of the example post loads at once. *)
Lemma record_content_and_pushes_witness :
  let r := success_record example_post (lit "hello world") 2 (lit "t") 0 in
  (is_success r = true →
   ∃ c p, r !! "content" = Some (VStr c) ∧ (length c ≤ 1000)%nat
          ∧ r !! "pushes" = Some (VInt (Z.of_nat p)))
  ∧ (is_success r = false →
     r !! "content" = Some (VStr []) ∧ r !! "pushes" = Some (VInt 0)).
Proof.
  apply (record_content_and_pushes (λ _, detail_up) (λ _, lit "t")
           example_post stats0).
  vm_compute. exact eq_refl.
Defined.

(** ** The counters of a unit *)

(** One attempt leaves the counters of articles alone. When it ends
    with [continue] it has counted one retry, or two when the set-up
    failed and the early [page.close()] raised as well; when it returns
    a record it has counted no retry, and one error exactly for an error
    record. *)
Lemma attempt_counters dp now post k s :
  match attempt dp now post k s with
  | mkRes o s' t =>
      articles_crawled s' = articles_crawled s
      ∧ articles_failed s' = articles_failed s
      ∧ match o with
        | inr Continue =>
            (S (articles_retried s) ≤ articles_retried s'
             ≤ S (S (articles_retried s)))%nat
            ∧ errors s' = errors s
        | inr (Return rec) =>
            articles_retried s' = articles_retried s
            ∧ (rec !! "status" = Some (VStr (lit "error"))
               ∧ errors s' = S (errors s)
               ∨ rec !! "status" ≠ Some (VStr (lit "error"))
                 ∧ errors s' = errors s)
        | inl _ => True
        end
  end.
Proof.
  unfold attempt, attempt_try, attempt_body, attempt_handler,
    handle_page_setup.
  unfold_m. simpl. run_paths.
  all: split; [done|]; split; [done|]; try done.
  all: split; [simpl; lia|]; try done.
  all: first
    [ left; split; [apply error_record_status|done]
    | right; split; [|done];
      rewrite ?success_record_status, ?failed_record_status; by intros [=] ].
Qed.

Lemma retry_loop_keeps_articles pages now post ks :
  keeps articles_crawled (retry_loop pages now post ks)
  ∧ keeps articles_failed (retry_loop pages now post ks).
Proof.
  induction ks as [|k ks [IHc IHf]]; [by split|].
  split; intros s; rewrite retry_loop_cons;
    pose proof (attempt_counters (pages k) (now k) post k s) as Ha;
    destruct (attempt (pages k) (now k) post k s) as [[e|[|r']] s1 t1];
    destruct Ha as (Hc & Hf & _); simpl; try done.
  - specialize (IHc s1). destruct (retry_loop pages now post ks s1).
    simpl in *. congruence.
  - specialize (IHf s1). destruct (retry_loop pages now post ks s1).
    simpl in *. congruence.
Qed.

Lemma retry_loop_counters pages now post n a s r :
  (0 < n)%nat → (a + n = S MAX_RETRIES)%nat →
  out (retry_loop pages now post (seq a n) s) = inr r →
  ∃ k, (a ≤ k ≤ MAX_RETRIES)%nat
       ∧ retry_count_of r = Z.of_nat k
       ∧ (articles_retried s + (k - a)
          ≤ articles_retried (st (retry_loop pages now post (seq a n) s))
          ≤ articles_retried s + 2 * (k - a))%nat
       ∧ (r !! "status" = Some (VStr (lit "error"))
          ∧ errors (st (retry_loop pages now post (seq a n) s))
            = S (errors s)
          ∨ r !! "status" ≠ Some (VStr (lit "error"))
            ∧ errors (st (retry_loop pages now post (seq a n) s))
              = errors s).
Proof.
  revert a s. induction n as [|n IH]; intros a s Hn Han; [lia|].
  rewrite <- cons_seq, retry_loop_cons.
  pose proof (attempt_counters (pages a) (now a) post a s) as Hc.
  pose proof (attempt_out (pages a) (now a) post a s) as Ho.
  destruct (attempt (pages a) (now a) post a s) as [[e|[|r']] s1 t1];
    simpl in *; destruct Hc as (_ & _ & Hc).
  - done.
  - destruct Hc as [Hretried Herrors].
    destruct (retry_loop pages now post (seq (S a) n) s1) as [o s2 t2] eqn:E.
    simpl. intros ->.
    destruct (IH (S a) s1) as (k & Hk & Hrc & Hr & He);
      [lia|lia|by rewrite E|].
    rewrite E in Hr, He. simpl in Hr, He.
    exists k. split; [lia|]. split; [done|]. split; [lia|].
    by rewrite <- Herrors.
  - intros [= ->]. destruct Hc as [Hretried Herrors].
    exists a. split; [lia|]. split; [|split; [lia|done]].
    destruct (unit_record_flags r a) as (_ & Hrc & _); [|done].
    exists post. destruct Ho as [(c & p & ->)|[[-> _]|(e & -> & _)]]; eauto 6.
Qed.

(** X4. A unit that returns a record has left the counters of articles
    and of boards alone; it has counted one error exactly when the
    record has status [error]; and it has counted at least as many
    retries as the retry count of the record, and at most twice as
    many (an attempt counts two when its set-up fails and the early
    [page.close()] raises as well). *)
Theorem unit_counters pages now post s r :
  out (get_article_detail_with_retry pages now post s) = inr r →
  let s' := st (get_article_detail_with_retry pages now post s) in
  articles_crawled s' = articles_crawled s
  ∧ articles_failed s' = articles_failed s
  ∧ boards_processed s' = boards_processed s
  ∧ (Z.of_nat (articles_retried s) + retry_count_of r
     ≤ Z.of_nat (articles_retried s')
     ≤ Z.of_nat (articles_retried s) + 2 * retry_count_of r)
  ∧ errors s'
    = (if bool_decide (r !! "status" = Some (VStr (lit "error")))
       then S (errors s) else errors s).
Proof.
  intros H s'. unfold s', get_article_detail_with_retry in *.
  destruct (retry_loop_keeps_articles pages now post (seq 0 (MAX_RETRIES + 1)))
    as [Hc Hf].
  split; [apply Hc|]. split; [apply Hf|].
  split; [apply retry_loop_keeps_boards_processed|].
  apply retry_loop_counters in H as (k & Hk & Hrc & Hr & He);
    [|unfold MAX_RETRIES; lia|done].
  split; [rewrite Hrc; lia|].
  destruct He as [[Hs ->]|[Hs ->]]; case_bool_decide; done.
Qed.

(** X4, an instance: the set-up of the first attempt fails and the
    early close raises; the second attempt succeeds with retry count 1,
    and two retries are counted. *)
Lemma unit_counters_witness :
  let r := success_record example_post (lit "hello world") 2 (lit "t") 1 in
  let s' := st (get_article_detail_with_retry detail_flaky (λ _, lit "t")
                  example_post stats0) in
  articles_retried s' = 2%nat
  ∧ retry_count_of r = 1
  ∧ articles_crawled s' = articles_crawled stats0
  ∧ articles_failed s' = articles_failed stats0
  ∧ boards_processed s' = boards_processed stats0
  ∧ (Z.of_nat (articles_retried stats0) + retry_count_of r
     ≤ Z.of_nat (articles_retried s')
     ≤ Z.of_nat (articles_retried stats0) + 2 * retry_count_of r)
  ∧ errors s'
    = (if bool_decide (r !! "status" = Some (VStr (lit "error")))
       then S (errors stats0) else errors stats0).
Proof.
  split; [vm_compute; reflexivity|]. split; [vm_compute; reflexivity|].
  apply (unit_counters detail_flaky (λ _, lit "t") example_post stats0).
  vm_compute. exact eq_refl.
Defined.

(** ** The counters of a board task *)

Lemma successes_cons r articles :
  successes (r :: articles)
  = ((if is_success r then 1 else 0) + successes articles)%nat.
Proof.
  unfold successes. rewrite filter_cons.
  destruct (is_success r); by destruct (decide _).
Qed.

Lemma non_successes_cons r articles :
  non_successes (r :: articles)
  = ((if is_success r then 0 else 1) + non_successes articles)%nat.
Proof.
  unfold non_successes. rewrite filter_cons.
  destruct (is_success r); destruct (decide _) as [H|H]; simpl; try done;
    exfalso; by apply H.
Qed.

Lemma successes_non_successes articles :
  (successes articles + non_successes articles = length articles)%nat.
Proof.
  induction articles as [|r articles IH]; [done|].
  rewrite successes_cons, non_successes_cons. simpl.
  destruct (is_success r); lia.
Qed.

Lemma collect_articles_counts results s :
  articles_crawled (st (collect_articles results s))
  = (articles_crawled s + successes (returned results))%nat
  ∧ articles_failed (st (collect_articles results s))
    = (articles_failed s + non_successes (returned results))%nat.
Proof.
  revert s. induction results as [|[e|r] results IH]; intros s.
  - simpl. unfold successes, non_successes. simpl. lia.
  - change (returned (inl e :: results)) with (returned results).
    simpl. unfold_m. simpl. specialize (IH (incr_errors s)).
    destruct (collect_articles results (incr_errors s)) as [[e'|a] s' t'];
      simpl in *; done.
  - change (returned (inr r :: results)) with (r :: returned results).
    rewrite successes_cons, non_successes_cons.
    simpl. unfold_m. simpl.
    specialize (IH ((if is_success r then incr_articles_crawled
                     else incr_articles_failed) s)).
    destruct (collect_articles results _) as [[e'|a] s' t']; simpl in *;
      destruct (is_success r); simpl in *; lia.
Qed.

Lemma article_tasks_keep_articles bw now posts :
  Forall (keeps articles_crawled) (article_tasks bw now posts)
  ∧ Forall (keeps articles_failed) (article_tasks bw now posts).
Proof.
  unfold article_tasks. split; apply Forall_lookup; intros i m Hm;
    apply list_lookup_imap_Some in Hm as (post & _ & ->);
    apply retry_loop_keeps_articles.
Qed.

(** X5. A board task adds to [articles_crawled] the number of success
    records it returns and to [articles_failed] the number of its other
    records; every record it returns is counted once. *)
Theorem board_counters_match_records bw now board s :
  ∃ articles,
    out (process_board bw now board s) = inr (name board, articles)
    ∧ articles_crawled (st (process_board bw now board s))
      = (articles_crawled s + successes articles)%nat
    ∧ articles_failed (st (process_board bw now board s))
      = (articles_failed s + non_successes articles)%nat
    ∧ (successes articles + non_successes articles = length articles)%nat.
Proof.
  destruct (process_board_spec bw now board s) as [Ho _].
  eexists. split; [exact Ho|].
  split; [|split; [|apply successes_non_successes]].
  all: unfold process_board.
  all: pose proof (get_board_posts_spec bw board s) as (Hst & _ & _).
  all: pose proof (stateless_out (get_board_posts bw board) s stats0
                     (stateless_get_board_posts bw board)) as Hout.
  all: unfold unit_outcomes, listed_posts; rewrite <- Hout; clear Hout.
  all: rewrite (bind_returns _ _ s () s [EvBoard (name board)] eq_refl).
  all: unfold try_except.
  all: destruct (get_board_posts bw board s) as [[e|[b posts]] s' t] eqn:E;
    simpl in Hst; subst s';
    [rewrite (bind_raises _ _ _ _ _ _ E); simpl;
     unfold successes, non_successes; simpl; lia|].
  all: rewrite (bind_returns _ _ _ _ _ _ E).
  all: destruct posts as [|post posts];
    [simpl; unfold successes, non_successes; simpl; lia|]; cbv iota.
  all: destruct (article_tasks_keep_articles bw now (post :: posts))
    as [Hkc Hkf].
  all: pose proof (gather_keeps _ _ Hkc s) as Hgc.
  all: pose proof (gather_keeps _ _ Hkf s) as Hgf.
  all: pose proof (gather_out _ s
                     (article_tasks_stateless bw now (post :: posts))) as Hgo.
  all: rewrite article_tasks_out in Hgo.
  all: unfold_m.
  all: destruct (gather (article_tasks bw now (post :: posts)) s)
    as [[e|rs] s1 t1]; simpl in Hgc, Hgf, Hgo; [done|].
  all: injection Hgo as ->.
  all: match goal with
       | |- context [collect_articles ?rs ?s0] =>
           destruct (collect_articles_counts rs s0) as [Hcc Hcf];
           destruct (collect_articles_spec rs s0) as [s2 Ec];
           rewrite Ec in Hcc, Hcf |- *
       end.
  all: simpl in *; lia.
Qed.

(** ** Pages that are opened are closed *)






(** ** What a listing returns *)

Lemma parse_post_elem_listed board pe s :
  ∀ p, out (parse_post_elem board pe s) = inr (Some p) → listed_on board p.
Proof.
  unfold parse_post_elem. unfold_m. simpl.
  run_paths; intros p' [= <-]; eexists _, _, _, _; (split; [reflexivity|done]).
Qed.

Lemma parse_post_elems_listed board elems s posts :
  out (parse_post_elems board elems s) = inr posts →
  Forall (listed_on board) posts.
Proof.
  revert posts. induction elems as [|pe elems IH]; intros posts; simpl.
  - by intros [= <-].
  - pose proof (parse_post_elem_listed board pe s) as Hp.
    destruct (parse_post_elem_spec board pe s) as (o & t1 & E1 & _).
    destruct (parse_post_elems_spec board elems s) as (ps & t2 & E2 & _).
    rewrite E1 in Hp. rewrite E2 in IH.
    rewrite (bind_returns _ _ _ _ _ _ E1), (bind_returns _ _ _ _ _ _ E2).
    simpl. intros [= <-]. specialize (IH ps eq_refl).
    destruct o as [p|]; [|done]. constructor; [by apply Hp|done].
Qed.

(** What [get_board_posts] returns when it returns: the board it was
    given, with no post or with the posts its index page shows. *)
Lemma get_board_posts_out bw board s b posts :
  out (get_board_posts bw board s) = inr (b, posts) →
  b = board ∧ (posts = [] ∨ posts = parsed_posts bw board).
Proof.
  unfold get_board_posts. unfold_m. simpl.
  repeat (match goal with
          | |- context [handle_page_setup ?p ?k ?s0] =>
              destruct (handle_page_setup_spec p k s0)
                as (? & ? & -> & _ & _ & _ & ?)
          | |- context [parse_post_elems ?bd ?l ?s0] =>
              let Hfb := fresh "Hfb" in
              let E := fresh "E" in
              pose proof (stateless_out _ s0 stats0
                            (stateless_parse_post_elems bd l)) as Hfb;
              destruct (parse_post_elems_spec bd l s0) as (? & ? & E & _);
              rewrite E in Hfb |- *; simpl in Hfb
          | _ => step_head
          end; simpl).
  all: try done.
  all: intros [= <- <-]; split; [done|]; try (by left).
  all: right; unfold parsed_posts.
  all: repeat match goal with
              | H : bw_all _ = _ |- _ => rewrite H; clear H
              | H : inr _ = out _ |- _ => rewrite <- H; clear H
              end.
  all: done.
Qed.

Lemma parsed_posts_listed bw board :
  Forall (listed_on board) (parsed_posts bw board).
Proof.
  unfold parsed_posts. destruct (bw_all bw) as [e|elems]; [done|].
  destruct (out (parse_post_elems board (take ARTICLES_PER_BOARD elems) stats0))
    as [e|posts] eqn:E; [done|].
  by eapply parse_post_elems_listed.
Qed.

Lemma get_board_posts_returns bw board s :
  pg_open (bw_page bw) = inr () → pg_close (bw_page bw) = inr () →
  ∃ posts, out (get_board_posts bw board s) = inr (board, posts).
Proof.
  intros Hopen Hclose. unfold get_board_posts. unfold_m. simpl.
  rewrite Hopen, Hclose. simpl.
  repeat (match goal with
          | |- context [handle_page_setup ?p ?k ?s0] =>
              destruct (handle_page_setup_spec p k s0)
                as (? & ? & -> & _ & _ & _ & ?)
          | |- context [parse_post_elems ?bd ?l ?s0] =>
              destruct (parse_post_elems_spec bd l s0) as (? & ? & -> & _)
          | _ => step_head
          end; simpl).
  all: by eexists.
Qed.

Lemma listing_record_dom t l a d b :
  dom (listing_record t l a d b) = list_to_set input_keys.
Proof.
  unfold listing_record, input_keys. rewrite !dom_insert_L, dom_empty_L.
  simpl. set_solver.
Qed.

(** X7. [get_board_posts] leaves the counters alone. When the page opens
    and closes it returns. What it returns is the board it was given and
    at most [ARTICLES_PER_BOARD] posts, each with exactly the five
    fields of a listing, the name of the board in [board] and a link
    under the address of the site. *)
Theorem listing_returns_posts_of_the_board bw board s :
  st (get_board_posts bw board s) = s
  ∧ (pg_open (bw_page bw) = inr () → pg_close (bw_page bw) = inr () →
     ∃ posts, out (get_board_posts bw board s) = inr (board, posts))
  ∧ ∀ b posts, out (get_board_posts bw board s) = inr (b, posts) →
      b = board
      ∧ (length posts ≤ ARTICLES_PER_BOARD)%nat
      ∧ Forall (listed_on board) posts
      ∧ ∀ post, post ∈ posts →
          dom post = list_to_set input_keys
          ∧ post !! "board" = Some (name board).
Proof.
  destruct (get_board_posts_spec bw board s) as (Hst & _ & Hposts).
  split; [done|]. split; [apply get_board_posts_returns|].
  intros b posts Ho. destruct (Hposts b posts Ho) as (-> & _ & Hlen).
  split; [done|]. split; [done|].
  assert (Forall (listed_on board) posts) as Hl.
  { apply get_board_posts_out in Ho as [_ [->| ->]]; [done|].
    apply parsed_posts_listed. }
  split; [done|]. intros post Hin.
  apply (proj1 (Forall_forall _ _) Hl) in Hin
    as (t & path & a & d & -> & _).
  split; [apply listing_record_dom|].
  unfold listing_record. by rewrite lookup_insert_eq.
Qed.

(** ** The semaphores never block the crawl *)

Lemma all_done_Forall {R} (units : list (@Sched.unit_st R)) :
  Forall (λ u, ∃ r, u = Sched.Done r) units →
  ∃ rs, Sched.all_done units = Some rs.
Proof.
  induction 1 as [|u units [r ->] _ [rs IH]]; [by eexists|].
  simpl. rewrite IH. by eexists.
Qed.

Lemma unit_inflight_zero {R} (units : list (@Sched.unit_st R)) :
  Forall (λ u, u ≠ Sched.InFlight) units →
  sum_list (Sched.unit_inflight <$> units) = 0%nat.
Proof.
  induction 1 as [|u units Hu _ IH]; [done|].
  rewrite fmap_cons. simpl. rewrite IH. by destruct u.
Qed.

Lemma board_active_zero {R} (boards : list (@Sched.board_st R)) :
  Forall (λ bs, bs = Sched.BWaiting ∨ ∃ rs, bs = Sched.BDone rs) boards →
  sum_list (Sched.board_active <$> boards) = 0%nat.
Proof.
  induction 1 as [|bs boards Hbs _ IH]; [done|].
  rewrite fmap_cons. simpl. rewrite IH.
  by destruct Hbs as [->|[rs ->]].
Qed.

(** A board inside [gather] can always move: it returns when all its
    units are finished, a unit in flight can finish, and when no unit is
    in flight a waiting unit finds a permit. *)
Lemma gather_can_move {R} (article_limit : nat) (results : nat → list R)
  (s : @Sched.sys R) b free units :
  (0 < article_limit)%nat →
  Sched.boards s !! b = Some (Sched.BGather free units) →
  board_ok article_limit results b (Sched.BGather free units) →
  ∃ a s', Sched.do_action article_limit results a s = Some s'.
Proof.
  intros Hal Hb (Hfree & Hlen & _).
  assert (∀ u : @Sched.unit_st R,
            {∃ r, u = Sched.Done r} + {u = Sched.Waiting ∨ u = Sched.InFlight})
    as Hdec1 by (intros [| |r]; [right; by left|right; by right|left; by eexists]).
  assert (∀ u : @Sched.unit_st R, {u ≠ Sched.InFlight} + {u = Sched.InFlight})
    as Hdec2 by (intros [| |r]; [by left|by right|by left]).
  destruct (Forall_Exists_dec _ _ Hdec1 units) as [Hdone|Hnot].
  { destruct (all_done_Forall units Hdone) as [rs Hrs].
    exists (Sched.BoardRelease b). simpl. rewrite Hb, Hrs. by eexists. }
  destruct (Forall_Exists_dec _ _ Hdec2 units) as [Hquiet|Hfly].
  - apply Exists_exists in Hnot as (u & Hin & Hu).
    apply list_elem_of_lookup in Hin as [i Hi].
    assert (u = Sched.Waiting) as ->.
    { destruct Hu as [->| ->]; [done|].
      by destruct (proj1 (Forall_forall _ _) Hquiet Sched.InFlight
                     (list_elem_of_lookup_2 _ _ _ Hi)). }
    simpl in Hfree. rewrite (unit_inflight_zero units Hquiet) in Hfree.
    destruct free as [|free]; [lia|].
    exists (Sched.UnitAcquire b i). simpl. rewrite Hb, Hi. by eexists.
  - apply Exists_exists in Hfly as (u & Hin & ->).
    apply list_elem_of_lookup in Hin as [i Hi].
    destruct (lookup_lt_is_Some_2 (results b) i) as [r Hr].
    { rewrite <- Hlen. by eapply lookup_lt_Some. }
    exists (Sched.UnitRelease b i). simpl. rewrite Hb, Hi, Hr. by eexists.
Qed.

(** X8. With at least one permit in each semaphore the crawl cannot
    block: in every state the event loop can reach, either every board
    has returned or some task can move. *)
Theorem semaphores_never_deadlock {R : Type}
  (board_limit article_limit : nat) (results : nat → list R)
  (nboards : nat) (sched : list Sched.action) s :
  (0 < board_limit)%nat → (0 < article_limit)%nat →
  Sched.run_schedule article_limit results sched
    (Sched.init board_limit nboards) = Some s →
  sched_finished s
  ∨ ∃ a s', Sched.do_action article_limit results a s = Some s'.
Proof.
  intros Hbl Hal Hrun.
  pose proof (sched_inv_run board_limit article_limit results sched _ s
                (sched_inv_init board_limit article_limit results nboards)
                Hrun) as [Hsem Hall].
  assert (∀ bs : @Sched.board_st R,
            {bs = Sched.BWaiting ∨ ∃ rs, bs = Sched.BDone rs}
            + {bs = Sched.BListing
               ∨ ∃ free units, bs = Sched.BGather free units})
    as Hdec1.
  { intros [| |free units|rs];
      [left; by left|right; by left|right; right; by eexists _, _
      |left; right; by eexists]. }
  assert (∀ bs : @Sched.board_st R,
            {bs ≠ Sched.BWaiting} + {bs = Sched.BWaiting})
    as Hdec2 by (intros [| |free units|rs]; [by right|by left..]).
  destruct (Forall_Exists_dec _ _ Hdec1 (Sched.boards s)) as [Hquiet|Hactive].
  - destruct (Forall_Exists_dec _ _ Hdec2 (Sched.boards s)) as [Hdone|Hwait].
    + left. intros b bs Hbs.
      pose proof (list_elem_of_lookup_2 _ _ _ Hbs) as Hin.
      destruct (proj1 (Forall_forall _ _) Hquiet bs Hin) as [->|?]; [|done].
      by destruct (proj1 (Forall_forall _ _) Hdone Sched.BWaiting Hin).
    + right. apply Exists_exists in Hwait as (bs & Hin & ->).
      apply list_elem_of_lookup in Hin as [b Hb].
      unfold Sched.active in Hsem.
      rewrite (board_active_zero _ Hquiet) in Hsem.
      exists (Sched.BoardAcquire b). simpl. rewrite Hb.
      destruct (Sched.board_sem s) as [|free]; [lia|]. by eexists.
  - right. apply Exists_exists in Hactive as (bs & Hin & Hbs).
    apply list_elem_of_lookup in Hin as [b Hb].
    destruct Hbs as [->|(free & units & ->)].
    + exists (Sched.Listed b). simpl. rewrite Hb.
      destruct (results b); by eexists.
    + eapply gather_can_move; [done|done|]. by apply Hall.
Qed.

(** X8, an instance: the limits of the crawler, one board of two posts
    with both units in flight; the first unit can finish. *)
Lemma semaphores_never_deadlock_witness :
  let results := board_units (world_of page_up board_up)
                   (example_clock (lit "t")) [example_board] in
  let s := Sched.mkSys 2 [Sched.BGather 3 [Sched.InFlight; Sched.InFlight]] in
  Sched.run_schedule CONCURRENT_ARTICLES results (take 4 example_schedule)
    (Sched.init CONCURRENT_BOARDS 1) = Some s
  ∧ (sched_finished s
     ∨ ∃ a s', Sched.do_action CONCURRENT_ARTICLES results a s = Some s').
Proof.
  intros results s.
  assert (Sched.run_schedule CONCURRENT_ARTICLES results
            (take 4 example_schedule) (Sched.init CONCURRENT_BOARDS 1)
          = Some s) as Hrun by (vm_compute; exact eq_refl).
  split; [exact Hrun|].
  apply (semaphores_never_deadlock CONCURRENT_BOARDS CONCURRENT_ARTICLES
           results 1 (take 4 example_schedule) s); [|  |exact Hrun].
  - unfold CONCURRENT_BOARDS. lia.
  - unfold CONCURRENT_ARTICLES. lia.
Defined.

(** ** The table of boards *)

Lemma foldl_add_board_result_Forall
  (P : pystr → list (gmap string pyval) → Prop) results d :
  map_Forall P d →
  (∀ n a, inr (n, a) ∈ results → a ≠ [] → P n a) →
  map_Forall P (foldl add_board_result d results).
Proof.
  revert d. induction results as [|r results IH]; intros d Hd Hr; [done|].
  change (foldl add_board_result d (r :: results))
    with (foldl add_board_result (add_board_result d r) results).
  apply IH; [|intros n a Hin; apply Hr; by right].
  destruct r as [e|[n [|a0 a]]]; simpl; try done.
  apply map_Forall_insert_2; [|done]. apply Hr; [left|done].
Qed.

Lemma foldl_add_board_result_size results d :
  (size (foldl add_board_result d results) ≤ size d + length results)%nat.
Proof.
  revert d. induction results as [|r results IH]; intros d; [simpl; lia|].
  change (foldl add_board_result d (r :: results))
    with (foldl add_board_result (add_board_result d r) results).
  specialize (IH (add_board_result d r)).
  assert (size (add_board_result d r) ≤ S (size d))%nat; [|simpl; lia].
  destruct r as [e|[n [|a0 a]]]; simpl; try lia.
  rewrite map_size_insert. destruct (d !! n); simpl; lia.
Qed.

(** X9. Every entry of the table the crawl returns is a board of the
    discovery, under its name, with the records of its units; no entry
    has an empty list of records; and the table has at most as many
    entries as the discovery has boards. *)
Theorem crawl_table_entries w ck s d :
  out (crawl_all_boards w ck s) = inr d →
  map_Forall
    (λ n articles,
       articles ≠ []
       ∧ ∃ b board,
           hot_boards w !! b = Some board ∧ name board = n
           ∧ inr <$> articles
             = unit_outcomes (w_board w b) (ck_article ck b) board) d
  ∧ (size d ≤ length (hot_boards w))%nat.
Proof.
  destruct (crawl_all_boards_spec w ck s) as [-> _]. unfold hot_boards.
  destruct (out (get_hotboards w stats0)) as [e|boards]; [done|].
  intros [= <-]. split.
  - apply foldl_add_board_result_Forall; [apply map_Forall_empty|].
    intros n a Hin Hne. split; [done|].
    apply elem_of_lookup_imap in Hin as (b & board & Heq & Hb).
    rewrite board_result_eq in Heq. injection Heq as -> ->.
    exists b, board. split; [done|]. split; [done|].
    apply unit_outcomes_returned.
  - pose proof (foldl_add_board_result_size
                  (imap (board_result w ck) boards) ∅) as H.
    by rewrite map_size_empty, length_imap in H.
Qed.

(** X9, an instance: one board, whose only article never loads. *)
Lemma crawl_table_entries_witness :
  let w := world_of page_up board_timeout in
  let ck := example_clock (lit "t") in
  let d : gmap pystr (list (gmap string pyval)) :=
    {[ lit "Stock" :=
         [error_record example_post
            (PlaywrightError (lit "Timeout 30000ms exceeded")) 2] ]} in
  map_Forall
    (λ n articles,
       articles ≠ []
       ∧ ∃ b board,
           hot_boards w !! b = Some board ∧ name board = n
           ∧ inr <$> articles
             = unit_outcomes (w_board w b) (ck_article ck b) board) d
  ∧ (size d ≤ length (hot_boards w))%nat.
Proof.
  apply (crawl_table_entries (world_of page_up board_timeout)
           (example_clock (lit "t")) stats0).
  vm_compute. exact eq_refl.
Defined.

(** ** The browser around the run *)

(** X10. [main] sets the browser up before anything else. When the
    set-up raises nothing else is called and the process ends with 1;
    when it returns, the calls of the process are the set-up, the calls
    of the run and the clean-up, which is called whatever the run
    answered. *)
Theorem main_brackets_the_run w ck s :
  head (tr (main w ck s)) = Some EvSetupBrowser
  ∧ (∀ e, w_setup_browser w = inl e →
          tr (main w ck s) = [EvSetupBrowser] ∧ out (main w ck s) = inr 1)
  ∧ (w_setup_browser w = inr () →
     tr (main w ck s) = EvSetupBrowser :: tr (run w ck s) ++ [EvCleanup]
     ∧ st (main w ck s) = st (run w ck s)
     ∧ last (tr (main w ck s)) = Some EvCleanup).
Proof.
  unfold main. unfold_m. simpl.
  destruct (w_setup_browser w) as [e|[]]; simpl.
  { split; [done|]. split; [by intros e' [= <-]|done]. }
  destruct (run w ck s) as [[e|b] s1 t1]; simpl;
    destruct (w_cleanup w) as [e'|[]]; simpl;
    (split; [done|]); (split; [done|]); intros _;
    rewrite ?app_nil_r; repeat split; try done;
    by rewrite (last_snoc (EvSetupBrowser :: t1) EvCleanup)
      || by rewrite last_cons, last_snoc.
Qed.

(** ** How many boards a run works on *)

Lemma parse_board_elems_length elems s boards :
  out (parse_board_elems elems s) = inr boards →
  (length boards ≤ length elems)%nat.
Proof.
  revert boards. induction elems as [|be elems IH]; intros boards; simpl.
  - by intros [= <-].
  - destruct (parse_board_elem_spec be s) as (o & t1 & E1 & _).
    destruct (parse_board_elems_spec elems s) as (bs & t2 & E2 & _).
    rewrite E2 in IH. specialize (IH bs eq_refl).
    rewrite (bind_returns _ _ _ _ _ _ E1), (bind_returns _ _ _ _ _ _ E2).
    simpl. intros [= <-]. destruct o; simpl; lia.
Qed.

Lemma found_boards_length w : (length (found_boards w) ≤ NUM_BOARDS)%nat.
Proof.
  unfold found_boards. destruct (w_hot_all w) as [e|elems]; [simpl; lia|].
  destruct (out (parse_board_elems (take NUM_BOARDS elems) stats0))
    as [e|boards] eqn:E; [simpl; lia|].
  apply parse_board_elems_length in E. rewrite length_take in E. lia.
Qed.

(** X11. When [get_hotboards] returns, it returns at least one board and
    at most [NUM_BOARDS]: the boards the discovery found, or the
    fallback list. *)
Theorem discovery_returns_one_to_ten_boards w s boards :
  out (get_hotboards w s) = inr boards →
  (1 ≤ length boards ≤ NUM_BOARDS)%nat
  ∧ (boards = get_default_boards ∨ discovered w = Some boards).
Proof.
  rewrite get_hotboards_out.
  destruct (pg_open (w_hot_page w)) as [e|[]]; [done|].
  destruct (pg_close (w_hot_page w)) as [e|[]]; [done|].
  intros [= <-]. unfold boards_to_crawl.
  destruct (discovered w) as [[|board boards]|] eqn:Hd;
    [split; [rewrite get_default_boards_length; unfold NUM_BOARDS; lia
            |by left]
    |
    |split; [rewrite get_default_boards_length; unfold NUM_BOARDS; lia
            |by left]].
  split; [|by right]. split; [simpl; lia|].
  assert (found_boards w = board :: boards) as <-; [|apply found_boards_length].
  unfold discovered in Hd.
  by destruct (pg_goto (w_hot_page w)),
    (out (handle_page_setup (w_hot_page w) 0 stats0)) as [?|[]],
    (w_hot_wait w), (w_hot_all w); try done; injection Hd.
Qed.

(** X11, an instance: the hot-boards page shows one board. *)
Lemma discovery_returns_one_to_ten_boards_witness :
  (1 ≤ length [example_board] ≤ NUM_BOARDS)%nat
  ∧ ([example_board] = get_default_boards
     ∨ discovered (world_of page_up board_up) = Some [example_board]).
Proof.
  apply (discovery_returns_one_to_ten_boards (world_of page_up board_up)
           stats0).
  vm_compute. reflexivity.
Defined.

(** ** The address of an index page *)

Lemma lstrip_char_head ch s : head (lstrip_char ch s) ≠ Some ch.
Proof.
  induction s as [|c s IH]; [done|]. simpl.
  destruct (c =? ch)%N eqn:E; [done|]. simpl.
  intros [= ->]. by rewrite N.eqb_refl in E.
Qed.

Lemma lstrip_char_split ch s :
  ∃ n, s = replicate n ch ++ lstrip_char ch s.
Proof.
  induction s as [|c s [n IH]]; [by exists 0%nat|]. simpl.
  destruct (c =? ch)%N eqn:Ec; [|by exists 0%nat].
  apply N.eqb_eq in Ec as ->. exists (S n). simpl. by rewrite <- IH.
Qed.

Lemma endswith_app s suffix tail :
  endswith tail suffix = true → endswith (s ++ tail) suffix = true.
Proof.
  unfold endswith. intros H. apply bool_decide_eq_true in H.
  apply bool_decide_eq_true.
  assert (length suffix ≤ length tail)%nat as Hle.
  { rewrite <- H at 1. rewrite length_drop. lia. }
  rewrite length_app.
  replace (length s + length tail - length suffix)%nat
    with (length s + (length tail - length suffix))%nat by lia.
  by rewrite drop_app_add.
Qed.

(** X12. The address [get_board_posts] navigates to always ends with
    [.html]: the address of the board itself when it ends so, and
    otherwise the address without its trailing slashes, followed by
    [/index.html]. *)
Theorem index_url_ends_with_html board :
  endswith (index_url board) (lit ".html") = true
  ∧ (endswith (url board) (lit ".html") = true →
     index_url board = url board)
  ∧ (endswith (url board) (lit ".html") = false →
     ∃ stem, index_url board = stem ++ lit "/index.html"
             ∧ last stem ≠ Some 47%N
             ∧ ∃ n, url board = stem ++ replicate n 47%N).
Proof.
  unfold index_url.
  destruct (endswith (url board) (lit ".html")) eqn:E.
  { split; [done|]. by split. }
  split; [by apply endswith_app|]. split; [done|]. intros _.
  exists (rstrip_slash (url board)). split; [done|].
  unfold rstrip_slash. split.
  - rewrite last_reverse. apply lstrip_char_head.
  - destruct (lstrip_char_split 47%N (reverse (url board))) as [n Hn].
    exists n. rewrite <- (reverse_involutive (url board)) at 1.
    rewrite Hn at 1. by rewrite reverse_app, reverse_replicate.
Qed.

